(** * Common primitives of the neh http/http2 transport

    A shallow embedding of [library/neh/http_common.h] (namespace
    [NNeh::NHttp]) together with the properties its description states:

    - [TFdLimits]          the soft/hard descriptor limits;
    - [TLockFreeSequence]  the lock-free, segment-doubling sequence;
    - [TRequestData], [TRequestGet], [TRequestPost], [TRequestFull]
                           the request buffer and its three builders;
    - [ERequestType]       the request types and their resolution.

    [size_t] is a 64-bit unsigned integer, kept as a [Z] in [0, 2^64) with the
    wrap-around of every operation written out.  Strings are lists of
    characters with the address they are stored at. *)

From Stdlib Require Import ZArith Lia List Ascii String Bool.
From stdpp Require Import base list.
Import ListNotations.

Local Open Scope Z_scope.

(** ** [size_t] *)

Module SizeT.

Definition bits : Z := 64.

Definition modulus : Z := 2 ^ bits.

(** The value a [size_t] holds after an operation whose exact result is [z]. *)
Definition wrap (z : Z) : Z := z mod modulus.

Definition in_range (z : Z) : Prop := 0 <= z < modulus.

Definition add (a b : Z) : Z := wrap (a + b).

Definition sub (a b : Z) : Z := wrap (a - b).

(** [a << b] for [0 <= b < 64]. *)
Definition shl (a b : Z) : Z := wrap (Z.shiftl a b).

End SizeT.

(** ** [TFdLimits] *)

Module FdLimits.

Record TFdLimits : Type := { Soft : Z; Hard : Z }.

(** The constructor [TFdLimits()]. *)
Definition Default : TFdLimits := {| Soft := 10000; Hard := 15000 |}.

(** [val > limit ? val - limit : 0] *)
Definition ExceedLimit (val limit : Z) : Z :=
  if val >? limit then SizeT.sub val limit else 0.

Definition Delta (l : TFdLimits) : Z := ExceedLimit (Hard l) (Soft l).

End FdLimits.


(** ** Request buffers and the request builders *)

Module Http.

(** *** Memory

    A request buffer owns one scratch region, [req->Mem]; every other byte a
    fragment can refer to is owned by the caller.  An address is a block and
    an offset into it. *)

Inductive block : Type :=
| BMem                  (* the scratch region of the request buffer at hand *)
| BCaller (id : nat).   (* a region owned by the caller *)

Record ptr : Type := { blk : block; ofs : Z }.

(** A [TString] or [TStringBuf]: where its characters are and what they are. *)
Record TStringBuf : Type := { c_str : ptr; chars : list ascii }.

(** [+s] *)
Definition size (s : TStringBuf) : Z := Z.of_nat (length (chars s)).

(** [!!s] *)
Definition nonempty (s : TStringBuf) : bool := negb (size s =? 0).

(** Modelled from the spec: [TMessage] ([neh.h]) is not among the sources;
    a message is the address of its target and its raw data. *)
Record TMessage : Type := { Addr : TStringBuf; Data : TStringBuf }.

(** Modelled from the spec: [TParsedLocation] ([location.h]) is not among
    the sources; its fields are the parts of a target, of which the builders
    read [Service], [Host] and [Port], each as the text it was parsed to. *)
Record TParsedLocation : Type := {
  Scheme : TStringBuf;
  UserInfo : TStringBuf;
  EndPoint : TStringBuf;
  Host : TStringBuf;
  Port : TStringBuf;
  Service : TStringBuf
}.

(** [IOutputStream::TPart] *)
Record TPart : Type := { buf : ptr; len : Z }.

Record TRequestData : Type := { Mem : list ascii; Parts_ : list TPart }.

(** [TRequestData(memSize)]: a vector of [memSize] zero characters, no part. *)
Definition new_TRequestData (memSize : Z) : TRequestData :=
  {| Mem := replicate (Z.to_nat memSize) zero; Parts_ := [] |}.

(** [~req->Mem] *)
Definition Mem_begin : ptr := {| blk := BMem; ofs := 0 |}.

(** *** The builders' state: the request under construction and the cursor *)

(** Modelled from the spec: [TMemoryOutput] ([util/stream/mem.h]) is not
    among the sources; the description gives it as a bounds-checked cursor
    over the scratch region, a write past the end being a fatal error.
    [Buf_] and [End_] are offsets from [~req->Mem]. *)
Record TMemoryOutput : Type := { Buf_ : Z; End_ : Z }.

Record build_state : Type := { req : TRequestData; out : TMemoryOutput }.

Inductive result (A : Type) : Type :=
| Ok (a : A)
| StreamExhausted.

Arguments Ok {A} a.
Arguments StreamExhausted {A}.

Definition build (A : Type) : Type := build_state -> result (A * build_state).

Definition ret {A : Type} (a : A) : build A := fun st => Ok (a, st).

Definition bind {A B : Type} (c : build A) (k : A -> build B) : build B :=
  fun st => match c st with
            | Ok (a, st') => k a st'
            | StreamExhausted => StreamExhausted
            end.

Declare Scope build_scope.
Delimit Scope build_scope with build.
Notation "x <- c ;; k" := (bind c (fun x => k))
  (at level 100, c at next level, k at level 200, right associativity)
  : build_scope.
Notation "c ;; k" := (bind c (fun _ => k))
  (at level 100, k at level 200, right associativity) : build_scope.

(** [mem] with [s] copied over it from offset [pos] on. *)
Definition splice (mem : list ascii) (pos : Z) (s : list ascii) : list ascii :=
  firstn (Z.to_nat pos) mem ++ s ++ skipn (Z.to_nat pos + length s) mem.

(** [TMemoryOutput::DoWrite] *)
Definition DoWrite (s : list ascii) : build unit := fun st =>
  let end_ := Buf_ (out st) + Z.of_nat (length s) in
  if end_ <=? End_ (out st)
  then Ok (tt, {| req := {| Mem := splice (Mem (req st)) (Buf_ (out st)) s;
                            Parts_ := Parts_ (req st) |};
                  out := {| Buf_ := end_; End_ := End_ (out st) |} |})
  else StreamExhausted.

(** [TMemoryOutput::DoWriteC] *)
Definition DoWriteC (c : ascii) : build unit := fun st =>
  if Buf_ (out st) <? End_ (out st)
  then Ok (tt, {| req := {| Mem := splice (Mem (req st)) (Buf_ (out st)) [c];
                            Parts_ := Parts_ (req st) |};
                  out := {| Buf_ := Buf_ (out st) + 1; End_ := End_ (out st) |} |})
  else StreamExhausted.

(** [out.Buf() - ~req->Mem] *)
Definition Buf_offset : build Z := fun st => Ok (Buf_ (out st), st).

(** [req->AddPart(buf, len)] *)
Definition add_part (r : TRequestData) (b : ptr) (n : Z) : TRequestData :=
  {| Mem := Mem r; Parts_ := Parts_ r ++ [ {| buf := b; len := n |} ] |}.

Definition AddPart (b : ptr) (n : Z) : build unit := fun st =>
  Ok (tt, {| req := add_part (req st) b n; out := out st |}).

(** A builder's body run on a fresh request of [memSize] bytes with a cursor
    over the whole of it; the request is what it returns. *)
Definition run_build (memSize : Z) (body : build unit) : result TRequestData :=
  match body {| req := new_TRequestData memSize;
                out := {| Buf_ := 0; End_ := memSize |} |} with
  | Ok (_, st) => Ok (req st)
  | StreamExhausted => StreamExhausted
  end.

(** *** What [operator<<] writes *)

Definition AsStringBuf (s : string) : list ascii := list_ascii_of_string s.

Definition crlf : string := String "013" (String "010" EmptyString).

Definition digit (d : Z) : ascii := ascii_of_nat (48 + Z.to_nat d).

Fixpoint digits_loop (fuel : nat) (n : Z) (acc : list ascii) : list ascii :=
  match fuel with
  | O => acc
  | S fuel' =>
      let acc' := digit (n mod 10) :: acc in
      if n / 10 =? 0 then acc' else digits_loop fuel' (n / 10) acc'
  end.

(** Modelled from the spec: [operator<<] of a [size_t] ([util/stream/output.h])
    is not among the sources; it writes the number in decimal, which for a
    64-bit value is at most 20 digits. *)
Definition ToString (n : Z) : list ascii := digits_loop 20 n [].


(** *** The builders *)

Local Open Scope build_scope.

(** [TRequestGet::Build] *)
Definition TRequestGet_Build (msg : TMessage) (loc : TParsedLocation)
  : result TRequestData :=
  run_build
    (SizeT.add (SizeT.add (SizeT.add 50 (size (Service loc))) (size (Data msg)))
               (size (Host loc)))
    (DoWrite (AsStringBuf "GET /") ;; DoWrite (chars (Service loc)) ;;
     (if nonempty (Data msg)
      then DoWriteC "?" ;; DoWrite (chars (Data msg))
      else ret tt) ;;
     DoWrite (AsStringBuf (" HTTP/1.1" ++ crlf ++ "Host: ")) ;;
     DoWrite (chars (Host loc)) ;;
     (if nonempty (Port loc)
      then DoWrite (AsStringBuf ":") ;; DoWrite (chars (Port loc))
      else ret tt) ;;
     DoWrite (AsStringBuf (crlf ++ crlf)) ;;
     n <- Buf_offset ;;
     AddPart Mem_begin n).

(** [TRequestPost::Build] *)
Definition TRequestPost_Build (msg : TMessage) (loc : TParsedLocation)
  : result TRequestData :=
  run_build
    (SizeT.add (SizeT.add 100 (size (Service loc))) (size (Host loc)))
    (DoWrite (AsStringBuf "POST /") ;; DoWrite (chars (Service loc)) ;;
     DoWrite (AsStringBuf (" HTTP/1.1" ++ crlf ++ "Host: ")) ;;
     DoWrite (chars (Host loc)) ;;
     (if nonempty (Port loc)
      then DoWrite (AsStringBuf ":") ;; DoWrite (chars (Port loc))
      else ret tt) ;;
     DoWrite (AsStringBuf (crlf ++ "Content-Length: ")) ;;
     DoWrite (ToString (size (Data msg))) ;;
     DoWrite (AsStringBuf (crlf ++ crlf)) ;;
     n <- Buf_offset ;;
     AddPart Mem_begin n ;;
     AddPart (c_str (Data msg)) (size (Data msg))).

(** [TRequestFull::Build] *)
Definition TRequestFull_Build (msg : TMessage) (_ : TParsedLocation)
  : result TRequestData :=
  Ok (add_part (new_TRequestData 0) (c_str (Data msg)) (size (Data msg))).

Local Close Scope build_scope.

(** The size [TRequestGet::Build] gives the scratch region of its request:
    [50 + +loc.Service + +msg.Data + +loc.Host], in [size_t]. *)
Definition TRequestGet_memSize (msg : TMessage) (loc : TParsedLocation) : Z :=
  SizeT.add (SizeT.add (SizeT.add 50 (size (Service loc))) (size (Data msg)))
            (size (Host loc)).

(** The size [TRequestPost::Build] gives it: [100 + +loc.Service + +loc.Host]. *)
Definition TRequestPost_memSize (loc : TParsedLocation) : Z :=
  SizeT.add (SizeT.add 100 (size (Service loc))) (size (Host loc)).

Definition TRequestGet_Name : list ascii := AsStringBuf "http".

Definition TRequestPost_Name : list ascii := AsStringBuf "post".

Definition TRequestFull_Name : list ascii := AsStringBuf "full".

(** *** The wire format, as the description gives it *)

(** [GET /<service>[?<data>] HTTP/1.1\r\nHost: <host>[:<port>]\r\n\r\n] *)
Definition GET_text (service data host port : list ascii) : list ascii :=
  AsStringBuf "GET /" ++ service
  ++ match data with [] => [] | _ :: _ => AsStringBuf "?" ++ data end
  ++ AsStringBuf (" HTTP/1.1" ++ crlf ++ "Host: ") ++ host
  ++ match port with [] => [] | _ :: _ => AsStringBuf ":" ++ port end
  ++ AsStringBuf (crlf ++ crlf).

(** [POST /<service> HTTP/1.1\r\nHost: <host>[:<port>]\r\n
    Content-Length: <length>\r\n\r\n], [length] being decimal digits *)
Definition POST_header (service host port length : list ascii) : list ascii :=
  AsStringBuf "POST /" ++ service
  ++ AsStringBuf (" HTTP/1.1" ++ crlf ++ "Host: ") ++ host
  ++ match port with [] => [] | _ :: _ => AsStringBuf ":" ++ port end
  ++ AsStringBuf (crlf ++ "Content-Length: ") ++ length
  ++ AsStringBuf (crlf ++ crlf).

(** The builders' state once the bytes [w] have been written into a region
    of [cap] zero bytes, the parts being [ps]. *)
Definition written (w : list ascii) (cap : Z) (ps : list TPart) : build_state :=
  {| req := {| Mem := w ++ replicate (Z.to_nat cap - length w) zero;
               Parts_ := ps |};
     out := {| Buf_ := Z.of_nat (length w); End_ := cap |} |}.

(** *** Sending a request

    [SendTo] hands the parts to the stream, which copies [len] bytes from
    [buf] for each of them in order.  The caller's regions are given by
    [caller]; a part of one byte or more that is not inside its region has
    no bytes to send. *)

Definition memory : Type := nat -> list ascii.

Definition load (caller : memory) (r : TRequestData) (p : ptr) (n : Z)
  : option (list ascii) :=
  let region := match blk p with
                | BMem => Mem r
                | BCaller id => caller id
                end in
  if n =? 0 then Some []
  else if (0 <=? ofs p) && (0 <=? n) && (ofs p + n <=? Z.of_nat (length region))
  then Some (firstn (Z.to_nat n) (skipn (Z.to_nat (ofs p)) region))
  else None.

Fixpoint write_parts (caller : memory) (r : TRequestData) (ps : list TPart)
  (io : list ascii) : option (list ascii) :=
  match ps with
  | [] => Some io
  | p :: ps' =>
      match load caller r (buf p) (len p) with
      | Some bytes => write_parts caller r ps' (io ++ bytes)
      | None => None
      end
  end.

(** [TRequestData::SendTo] *)
Definition SendTo (caller : memory) (r : TRequestData) (io : list ascii)
  : option (list ascii) :=
  write_parts caller r (Parts_ r) io.

(** The string [s] is alive in the caller's memory. *)
Definition alive (caller : memory) (s : TStringBuf) : Prop :=
  exists id, blk (c_str s) = BCaller id /\
    0 <= ofs (c_str s) /\
    firstn (length (chars s)) (skipn (Z.to_nat (ofs (c_str s))) (caller id))
      = chars s /\
    ofs (c_str s) + size s <= Z.of_nat (length (caller id)).

(** A string the caller keeps at the start of its region [id]. *)
Definition literal (id : nat) (s : string) : TStringBuf :=
  {| c_str := {| blk := BCaller id; ofs := 0 |}; chars := AsStringBuf s |}.

(** A location and a message of such strings. *)
Definition location (scheme host port service : string) : TParsedLocation :=
  {| Scheme := literal 1 scheme; UserInfo := literal 2 "";
     EndPoint := literal 3 host; Host := literal 4 host;
     Port := literal 5 port; Service := literal 6 service |}.

Definition message (addr data : string) : TMessage :=
  {| Addr := literal 0 addr; Data := literal 7 data |}.

(** The caller's memory when it keeps only the data of [message _ data]. *)
Definition memory_of_data (data : string) : memory :=
  fun id => if Nat.eqb id 7 then AsStringBuf data else [].

End Http.


(** ** [TLockFreeSequence] *)

Module LockFreeSequence.

(** *** Where [Get(n)] looks *)

Fixpoint bit_count (fuel : nat) (v : Z) : Z :=
  match fuel with
  | O => 0
  | S fuel' => if v =? 0 then 0 else 1 + bit_count fuel' (Z.shiftr v 1)
  end.

(** Modelled from the spec: [GetValueBitCount] ([util/generic/bitops.h]) is
    not among the sources; the description gives it as the bit length of its
    argument, the number of binary digits up to the highest set one.  Its
    result is taken as a [size_t]. *)
Definition GetValueBitCount (v : Z) : Z := bit_count 64 v.

(** [Y_ARRAY_SIZE(T_)], that is [sizeof(size_t) * 8] *)
Definition slots : Z := 64.

(** [i] of [Get]: [GetValueBitCount(n + 1) - 1] *)
Definition segment (n : Z) : Z :=
  SizeT.sub (GetValueBitCount (SizeT.add n 1)) 1.

(** The index [Get] applies to the segment: [n + 1 - (((size_t)1) << i)] *)
Definition offset (n : Z) : Z :=
  SizeT.sub (SizeT.add n 1) (SizeT.shl 1 (segment n)).

(** The indices [Get] is defined on: [n + 1] is a [size_t]. *)
Definition valid_index (n : Z) : bool := (0 <=? n) && (n + 1 <? SizeT.modulus).

(** *** Arrays

    Every [new T[...]] yields an array of its own; an array is named by its
    rank among the allocations.  Each keeps who allocated it, how many
    elements it has and who has passed it to [delete[]]. *)

Inductive party : Type :=
| Thread (k : nat)
| Destructor.

Record array : Type := { elements : Z; owner : nat; freed_by : list party }.

Definition free (by_ : party) (a : array) : array :=
  {| elements := elements a; owner := owner a;
     freed_by := freed_by a ++ [by_] |}.

(** [delete[] p] *)
Definition delete_array (by_ : party) (p : nat) (h : list array) : list array :=
  alter (free by_) p h.

(** *** Threads inside [Get]

    A thread is at one of the operations of [GetList] on shared memory: the
    [AtomicGet] of the loop's test, the [new], the [AtomicCas], the
    [delete[]] of the holder that goes out of scope, the read of [*t] in the
    last [return].  An operation is counted as one step, and the steps of
    different threads interleave in any order.

    [new] does not always yield an array.  It throws [std::bad_alloc], or
    [std::bad_array_new_length], which is one, when the array asked for is
    larger than an object can be and when the allocator has no memory for
    it; [GetList] and [Get] catch nothing, so the exception leaves them and
    the call returns no reference. *)

Inductive pc : Type :=
| AtGet                    (* while (!AtomicGet( *t)) *)
| AtNew                    (* TArrayHolder<T> nt(new T[((size_t)1) << n]) *)
| AtCas (nt : nat)         (* if (AtomicCas(t, nt.Get(), nullptr)) *)
| AtDelete (nt : nat)      (* the holder goes out of scope: delete[] nt *)
| AtReturn                 (* return *t *)
| Done (p : option nat)    (* GetList has returned p *)
| Thrown                   (* new has thrown; the call has ended without a reference *)
| Undefined.               (* T_ + n is outside T_ *)

Record frame : Type := { index : Z; at_ : pc }.

Record state : Type := {
  T_ : list (option nat);
  arrays : list array;
  threads : list frame
}.

(** [TLockFreeSequence()]: every slot is null; nothing is allocated. *)
Definition new_sequence : state :=
  {| T_ := replicate (Z.to_nat slots) None; arrays := []; threads := [] |}.

(** [T_[i]], when [i] is inside [T_] *)
Definition slot (T : list (option nat)) (i : Z) : option (option nat) :=
  if (0 <=? i) && (i <? slots) then T !! Z.to_nat i else None.

(** The most elements an array can have, whatever [T] is: an object takes
    [PTRDIFF_MAX] bytes at most and an element one byte at least.  [new] of
    more throws.  (With larger elements fewer fit; that, like a lack of
    memory, is the [bad_alloc] below.) *)
Definition max_elements : Z := 2 ^ 63 - 1.

(** Whether an array of [((size_t)1) << i] elements is one [new] can make. *)
Definition allocatable (i : Z) : bool := SizeT.shl 1 i <=? max_elements.

(** One step of thread [k] inside [GetList(i)]: from where it is, [at_k],
    with the slots [T] and the arrays [h], to where it is next.  At [new]
    this is the step of an allocator that has the memory; [bad_alloc] below
    is the other case. *)
Definition GetList_step (k : nat) (i : Z) (at_k : pc)
  (T : list (option nat)) (h : list array)
  : pc * list (option nat) * list array :=
  match at_k with
  | AtGet =>
      match slot T i with
      | Some (Some _) => (AtReturn, T, h)
      | Some None => (AtNew, T, h)
      | None => (Undefined, T, h)
      end
  | AtNew =>
      if allocatable i
      then (AtCas (length h), T,
            h ++ [ {| elements := SizeT.shl 1 i; owner := k; freed_by := [] |} ])
      else (Thrown, T, h)
  | AtCas nt =>
      match slot T i with
      | Some None => (Done (Some nt), <[Z.to_nat i := Some nt]> T, h)
      | Some (Some _) => (AtDelete nt, T, h)
      | None => (Undefined, T, h)
      end
  | AtDelete nt => (AtGet, T, delete_array (Thread k) nt h)
  | AtReturn =>
      match slot T i with
      | Some p => (Done p, T, h)
      | None => (Undefined, T, h)
      end
  | Done p => (Done p, T, h)
  | Thrown => (Thrown, T, h)
  | Undefined => (Undefined, T, h)
  end.

Definition step (k : nat) (s : state) : state :=
  match threads s !! k with
  | Some f =>
      let '(at', T', h') :=
        GetList_step k (segment (index f)) (at_ f) (T_ s) (arrays s) in
      {| T_ := T'; arrays := h';
         threads := <[k := {| index := index f; at_ := at' |}]> (threads s) |}
  | None => s
  end.

(** A thread calls [Get(n)]. *)
Definition call (n : Z) (s : state) : state :=
  {| T_ := T_ s; arrays := arrays s;
     threads := threads s ++ [ {| index := n; at_ := AtGet |} ] |}.

(** The [new] of thread [k] throws: the allocator has no memory for the
    array, or the array is too large for elements of the size of [T].
    Nothing is allocated and no slot changes.  Only a thread that is at its
    [new] can be refused. *)
Definition bad_alloc (k : nat) (s : state) : state :=
  match threads s !! k with
  | Some f =>
      match at_ f with
      | AtNew =>
          {| T_ := T_ s; arrays := arrays s;
             threads := <[k := {| index := index f; at_ := Thrown |}]> (threads s) |}
      | _ => s
      end
  | None => s
  end.

(** What can happen to a sequence: a thread calls [Get(n)]; thread [k] takes
    its next step; the [new] of thread [k] throws. *)
Inductive event : Type :=
| Call (n : Z)
| Step (k : nat)
| BadAlloc (k : nat).

Definition exec1 (s : state) (e : event) : state :=
  match e with
  | Call n => call n s
  | Step k => step k s
  | BadAlloc k => bad_alloc k s
  end.

(** The state after the events [evs], the earliest first. *)
Definition exec (evs : list event) (s : state) : state :=
  fold_left exec1 evs s.

(** The reference [Get] returns, [GetList(i)[n + 1 - (1 << i)]]: the array
    and the index into it.  There is one when the array has not been deleted
    and the index is inside it. *)
Definition reference (h : list array) (f : frame) : option (nat * Z) :=
  match at_ f with
  | Done (Some p) =>
      match h !! p with
      | Some a =>
          match freed_by a with
          | [] =>
              if (0 <=? offset (index f)) && (offset (index f) <? elements a)
              then Some (p, offset (index f))
              else None
          | _ :: _ => None
          end
      | None => None
      end
  | _ => None
  end.

(** [Get(n)], called in the state [s] by a thread of its own, which is
    thread [length (threads s)].  [sched] is what happens from the call on:
    the steps of the caller and, between them in any order, the calls, the
    steps and the failed allocations of the other threads.  The result is the
    reference the caller has returned by the end of [sched], if it has
    returned, and the state reached. *)
Definition Get (n : Z) (sched : list event) (s : state)
  : option (nat * Z) * state :=
  let k := length (threads s) in
  let s' := exec (Call n :: sched) s in
  (threads s' !! k ≫= reference (arrays s'), s').

(** [~TLockFreeSequence()]: [delete[] T_[i]] for every [i]; deleting a null
    pointer does nothing. *)
Definition destroy (T : list (option nat)) (h : list array) : list array :=
  fold_left (fun h' t => match t with
                         | Some p => delete_array Destructor p h'
                         | None => h'
                         end) T h.

Definition is_done (f : frame) : bool :=
  match at_ f with
  | Done _ => true
  | _ => false
  end.

Definition all_done (s : state) : bool := forallb is_done (threads s).

Definition call_ok (ok : Z -> bool) (e : event) : bool :=
  match e with
  | Call n => ok n
  | Step _ | BadAlloc _ => true
  end.

(** Every call among the events is of an index [Get] is defined on. *)
Definition calls_valid (evs : list event) : bool :=
  forallb (call_ok valid_index) evs.

(** *** What holds of every state the sequence can be in *)

(** The slot of [T_] a thread is after. *)
Definition seg (f : frame) : nat := Z.to_nat (segment (index f)).

(** Thread [k] holds the array [nt] it has allocated: the array is its own,
    has not been deleted, and is in no slot. *)
Definition holds (T : list (option nat)) (h : list array) (k : nat)
  (f : frame) (nt : nat) : Prop :=
  h !! nt = Some {| elements := SizeT.shl 1 (segment (index f));
                    owner := k; freed_by := [] |}
  /\ forall j, T !! j <> Some (Some nt).

Definition frame_ok (T : list (option nat)) (h : list array) (k : nat)
  (f : frame) : Prop :=
  valid_index (index f) = true
  /\ match at_ f with
     | AtGet | AtNew => True
     | AtCas nt => holds T h k f nt
     | AtDelete nt => holds T h k f nt /\ exists p, T !! seg f = Some (Some p)
     | AtReturn => exists p, T !! seg f = Some (Some p)
     | Done r => exists p, r = Some p /\ T !! seg f = Some (Some p)
     | Thrown => True
     | Undefined => False
     end.

(** The array in slot [j] has not been deleted, and the thread that
    allocated it has returned it. *)
Definition published_ok (T : list (option nat)) (h : list array)
  (ts : list frame) : Prop :=
  forall j p, T !! j = Some (Some p) ->
    exists k f,
      h !! p = Some {| elements := SizeT.shl 1 (segment (index f));
                       owner := k; freed_by := [] |}
      /\ ts !! k = Some f /\ seg f = j /\ at_ f = Done (Some p).

(** An array is held by the thread that allocated it, or is in a slot, or
    has been deleted once, by the thread that allocated it. *)
Definition array_ok (T : list (option nat)) (ts : list frame) (a : nat)
  (c : array) : Prop :=
  (exists f, ts !! owner c = Some f
             /\ elements c = SizeT.shl 1 (segment (index f)))
  /\ ((freed_by c = []
       /\ ((exists f, ts !! owner c = Some f
                      /\ (at_ f = AtCas a \/ at_ f = AtDelete a))
           \/ exists j, T !! j = Some (Some a)))
      \/ freed_by c = [Thread (owner c)]).

Definition invariant (s : state) : Prop :=
  length (T_ s) = Z.to_nat slots
  /\ (forall k f, threads s !! k = Some f -> frame_ok (T_ s) (arrays s) k f)
  /\ published_ok (T_ s) (arrays s) (threads s)
  /\ (forall a c, arrays s !! a = Some c -> array_ok (T_ s) (threads s) a c).

End LockFreeSequence.

(** ** Request types *)

Module RequestType.

Inductive ERequestType : Type := Any | Post | Get | Put | Delete.

Definition DefaultRequestType : ERequestType := Any.

Definition eqb_chars (a b : list ascii) : bool :=
  String.eqb (string_of_list_ascii a) (string_of_list_ascii b).

(** The schemes of the http family. *)
Definition is_http_scheme (scheme : list ascii) : bool :=
  eqb_chars scheme (Http.AsStringBuf "http")
  || eqb_chars scheme (Http.AsStringBuf "https")
  || eqb_chars scheme (Http.AsStringBuf "http2").

(** Modelled from the spec: [MakeFullRequest] is declared in the header and
    defined elsewhere; this is the request type it settles on, as the
    description and the note at its declaration give it: [Any] is GET when
    the content is empty and the scheme is of the http family, POST
    otherwise; the other types stand. *)
Definition ResolveRequestType (reqType : ERequestType)
  (content : list ascii) (loc : Http.TParsedLocation) : ERequestType :=
  match reqType with
  | Any =>
      match content with
      | [] => if is_http_scheme (Http.chars (Http.Scheme loc)) then Get else Post
      | _ :: _ => Post
      end
  | _ => reqType
  end.

End RequestType.


(** ** How far a thread is from the end of its call *)

Module Progress.

Import LockFreeSequence.

(** How many of the events are steps of thread [k]. *)
Fixpoint own_steps (k : nat) (evs : list event) : nat :=
  match evs with
  | [] => 0
  | Step j :: evs' => (if Nat.eqb j k then 1 else 0) + own_steps k evs'
  | _ :: evs' => own_steps k evs'
  end.

(** Whether among the events the allocator refuses thread [k]. *)
Definition refused (k : nat) (evs : list event) : bool :=
  existsb (fun e => match e with
                    | BadAlloc j => Nat.eqb j k
                    | _ => false
                    end) evs.

(** The call of the thread has ended: [GetList] has returned, or its [new]
    has thrown. *)
Definition has_ended (f : frame) : bool :=
  match at_ f with
  | Done _ | Thrown => true
  | _ => false
  end.

(** The thread has no [new] before it: it is past the loop's body, or at the
    loop's test with the slot filled. *)
Definition only_reads (T : list (option nat)) (f : frame) : Prop :=
  match at_ f with
  | AtGet => exists p, T !! seg f = Some (Some p)
  | AtCas _ | AtDelete _ | AtReturn | Done _ => True
  | AtNew | Thrown | Undefined => False
  end.

(** No array is larger than [new] makes them. *)
Definition arrays_fit (s : state) : Prop :=
  forall a c, arrays s !! a = Some c -> elements c <= max_elements.

(** The steps thread [k] has left at most before its call has ended: from
    the loop's test six when the slot is null (test, [new], [AtomicCas],
    [delete[]], test, [return]) and two when it is not. *)
Definition steps_left (s : state) (k : nat) : nat :=
  match threads s !! k with
  | None => 0
  | Some f =>
      match at_ f with
      | AtGet =>
          match slot (T_ s) (segment (index f)) with
          | Some (Some _) => 2
          | _ => 6
          end
      | AtNew => 5
      | AtCas _ => 4
      | AtDelete _ => 3
      | AtReturn => 1
      | Done _ | Thrown | Undefined => 0
      end
  end.

(** No two arrays were allocated by one thread. *)
Definition one_array_each (h : list array) : Prop :=
  forall a a' c c',
    h !! a = Some c -> h !! a' = Some c' -> owner c = owner c' -> a = a'.

(** A thread that has allocated an array is past its [new]: it holds the
    array, or has seen the slot filled, or has returned. *)
Definition past_new (T : list (option nat)) (ts : list frame) (a : nat)
  (c : array) : Prop :=
  exists f, ts !! owner c = Some f
    /\ match at_ f with
       | AtCas nt | AtDelete nt => nt = a
       | AtGet => exists p, T !! seg f = Some (Some p)
       | AtReturn | Done _ => True
       | AtNew | Thrown | Undefined => False
       end.

Definition allocations_ok (s : state) : Prop :=
  one_array_each (arrays s)
  /\ forall a c, arrays s !! a = Some c -> past_new (T_ s) (threads s) a c.

End Progress.


(** * Properties *)

(** ** [size_t] arithmetic *)

Section SizeTFacts.

Lemma modulus_value : SizeT.modulus = 18446744073709551616.
Proof. reflexivity. Qed.

Lemma wrap_in_range (z : Z) : SizeT.in_range z -> SizeT.wrap z = z.
Proof.
  unfold SizeT.in_range, SizeT.wrap. intros Hz.
  apply Z.mod_small. exact Hz.
Qed.

Lemma add_exact (a b : Z) :
  0 <= a + b < SizeT.modulus -> SizeT.add a b = a + b.
Proof. intros H. unfold SizeT.add. apply wrap_in_range. exact H. Qed.

Lemma sub_exact (a b : Z) :
  0 <= a - b < SizeT.modulus -> SizeT.sub a b = a - b.
Proof. intros H. unfold SizeT.sub. apply wrap_in_range. exact H. Qed.

Lemma shl_one (i : Z) : 0 <= i < SizeT.bits -> SizeT.shl 1 i = 2 ^ i.
Proof.
  intros Hi. unfold SizeT.shl.
  rewrite Z.shiftl_1_l. apply wrap_in_range.
  unfold SizeT.in_range, SizeT.modulus. split.
  - apply Z.pow_nonneg. lia.
  - apply Z.pow_lt_mono_r; lia.
Qed.

End SizeTFacts.

(** ** [TFdLimits] *)

Section FdLimitsFacts.

Import FdLimits.

Lemma ExceedLimit_above (val limit : Z) :
  SizeT.in_range val -> SizeT.in_range limit -> limit < val ->
  ExceedLimit val limit = val - limit.
Proof.
  intros Hv Hl Hlt. unfold ExceedLimit.
  destruct (Z.gtb_spec val limit) as [_ | Hle]; [| lia].
  apply sub_exact. unfold SizeT.in_range in *. lia.
Qed.

Lemma ExceedLimit_below (val limit : Z) :
  val <= limit -> ExceedLimit val limit = 0.
Proof.
  intros Hle. unfold ExceedLimit.
  destruct (Z.gtb_spec val limit) as [Hgt | _]; [lia | reflexivity].
Qed.

(** C9.  [Delta()] is [max(Hard - Soft, 0)] in exact arithmetic, whatever
    [size_t] values [Soft] and [Hard] hold: the difference when [Hard] is
    above [Soft], and 0 (no wrap-around) otherwise.  A default-constructed
    [TFdLimits] has [Soft = 10000], [Hard = 15000] and so [Delta() = 5000];
    [Soft = 10000] with [Hard = 8000] gives [Delta() = 0]. *)
Theorem Delta_is_floored_difference (l : TFdLimits) :
  SizeT.in_range (Soft l) -> SizeT.in_range (Hard l) ->
  Delta l = Z.max (Hard l - Soft l) 0
  /\ (Soft l < Hard l -> Delta l = Hard l - Soft l)
  /\ (Hard l <= Soft l -> Delta l = 0)
  /\ Soft Default = 10000 /\ Hard Default = 15000 /\ Delta Default = 5000
  /\ Delta {| Soft := 10000; Hard := 8000 |} = 0.
Proof.
  intros Hs Hh. unfold Delta.
  repeat split; try reflexivity.
  - destruct (Z.lt_ge_cases (Soft l) (Hard l)) as [Hlt | Hge].
    + rewrite ExceedLimit_above by assumption. lia.
    + rewrite ExceedLimit_below by assumption. lia.
  - intros Hlt. apply ExceedLimit_above; assumption.
  - intros Hle. apply ExceedLimit_below; assumption.
Qed.

Lemma Delta_inverted_example :
  Delta {| Soft := 10000; Hard := 8000 |}
  = Z.max (Hard {| Soft := 10000; Hard := 8000 |}
           - Soft {| Soft := 10000; Hard := 8000 |}) 0.
Proof.
  refine (proj1 (Delta_is_floored_difference {| Soft := 10000; Hard := 8000 |} _ _));
    unfold SizeT.in_range; rewrite modulus_value; simpl; lia.
Defined.

End FdLimitsFacts.

(** ** Request types and builder names *)

Section RequestTypeFacts.

Import RequestType.

Lemma eqb_chars_eq (a b : list ascii) : eqb_chars a b = true <-> a = b.
Proof.
  unfold eqb_chars. rewrite String.eqb_eq. split.
  - intros H.
    rewrite <- (list_ascii_of_string_of_list_ascii a).
    rewrite <- (list_ascii_of_string_of_list_ascii b).
    f_equal. exact H.
  - intros ->. reflexivity.
Qed.

Lemma is_http_scheme_iff (scheme : list ascii) :
  is_http_scheme scheme = true <->
  scheme = Http.AsStringBuf "http" \/ scheme = Http.AsStringBuf "https"
  \/ scheme = Http.AsStringBuf "http2".
Proof.
  unfold is_http_scheme.
  rewrite !orb_true_iff, !eqb_chars_eq. tauto.
Qed.

(** C8.  A requested type of [Any] becomes GET exactly when the content is
    empty and the scheme is one of http, https, http2, and POST in every
    other case; [Post], [Get], [Put] and [Delete] are used as given. *)
Theorem ResolveRequestType_spec (content : list ascii)
  (loc : Http.TParsedLocation) :
  let http_family :=
    Http.chars (Http.Scheme loc) = Http.AsStringBuf "http"
    \/ Http.chars (Http.Scheme loc) = Http.AsStringBuf "https"
    \/ Http.chars (Http.Scheme loc) = Http.AsStringBuf "http2" in
  (ResolveRequestType Any content loc = Get <-> content = [] /\ http_family)
  /\ (ResolveRequestType Any content loc = Post
      <-> ~ (content = [] /\ http_family))
  /\ ResolveRequestType Post content loc = Post
  /\ ResolveRequestType Get content loc = Get
  /\ ResolveRequestType Put content loc = Put
  /\ ResolveRequestType Delete content loc = Delete
  /\ DefaultRequestType = Any.
Proof.
  intros http_family. subst http_family.
  pose proof (is_http_scheme_iff (Http.chars (Http.Scheme loc))) as Hs.
  assert (Hrest : ResolveRequestType Post content loc = Post
                  /\ ResolveRequestType Get content loc = Get
                  /\ ResolveRequestType Put content loc = Put
                  /\ ResolveRequestType Delete content loc = Delete
                  /\ DefaultRequestType = Any)
    by (repeat split).
  unfold ResolveRequestType at 1 2.
  destruct content as [| c content].
  - destruct (is_http_scheme (Http.chars (Http.Scheme loc))) eqn:E.
    + assert (Hf := proj1 Hs eq_refl).
      split; [| split; [| exact Hrest]].
      * split; [intros _; split; [reflexivity | exact Hf] | reflexivity].
      * split; [discriminate |].
        intros Hn. exfalso. apply Hn. split; [reflexivity | exact Hf].
    + assert (Hf : ~ (Http.chars (Http.Scheme loc) = Http.AsStringBuf "http"
                      \/ Http.chars (Http.Scheme loc) = Http.AsStringBuf "https"
                      \/ Http.chars (Http.Scheme loc) = Http.AsStringBuf "http2")).
      { intros Hf. apply Hs in Hf. discriminate Hf. }
      split; [| split; [| exact Hrest]].
      * split; [discriminate | intros [_ Hf']; contradiction].
      * split; [intros _ [_ Hf']; contradiction | reflexivity].
  - split; [| split; [| exact Hrest]].
    + split; [discriminate | intros [Hc _]; discriminate Hc].
    + split; [intros _ [Hc _]; discriminate Hc | reflexivity].
Qed.

(** C10.  [Name()] of the GET builder is "http", of the POST builder "post",
    of the FULL builder "full". *)
Theorem builder_names :
  string_of_list_ascii Http.TRequestGet_Name = "http"%string
  /\ string_of_list_ascii Http.TRequestPost_Name = "post"%string
  /\ string_of_list_ascii Http.TRequestFull_Name = "full"%string.
Proof. repeat split. Qed.

End RequestTypeFacts.

(** ** Where [Get(n)] looks *)

Section Addressing.

Import LockFreeSequence.

Lemma bit_count_zero (fuel : nat) : bit_count fuel 0 = 0.
Proof. destruct fuel; reflexivity. Qed.

Lemma bit_count_log2 (fuel : nat) :
  forall v, 0 < v < 2 ^ Z.of_nat fuel -> bit_count fuel v = Z.log2 v + 1.
Proof.
  induction fuel as [| fuel IH]; intros v [Hpos Hlt].
  - simpl in Hlt. lia.
  - cbn [bit_count].
    destruct (Z.eqb_spec v 0) as [-> | _]; [lia |].
    rewrite Z.shiftr_div_pow2 by lia. change (2 ^ 1) with 2.
    destruct (Z.eq_dec (v / 2) 0) as [Hz | Hnz].
    + rewrite Hz, bit_count_zero.
      assert (v = 1) as -> by (apply Z.div_small_iff in Hz; lia).
      reflexivity.
    + assert (Hhalf : 0 < v / 2) by (pose proof (Z.div_pos v 2); lia).
      rewrite IH.
      * assert (Hl : Z.log2 v = Z.log2 (v / 2) + 1); [| lia].
        pose proof (Z.log2_nonneg (v / 2)) as Hnn.
        pose proof (Z.log2_spec (v / 2) Hhalf) as Hspec.
        pose proof (Z.div_mod v 2) as Hdm.
        pose proof (Z.mod_pos_bound v 2) as Hmod.
        apply Z.log2_unique; [lia |].
        unfold Z.succ in *.
        rewrite !Z.pow_add_r in * by lia. change (2 ^ 1) with 2 in *. lia.
      * split; [exact Hhalf |].
        apply Z.div_lt_upper_bound; [lia |].
        rewrite Nat2Z.inj_succ, Z.pow_succ_r in Hlt by lia. exact Hlt.
Qed.

Lemma GetValueBitCount_log2 (v : Z) :
  0 < v < SizeT.modulus -> GetValueBitCount v = Z.log2 v + 1.
Proof. intros Hv. unfold GetValueBitCount. apply bit_count_log2. exact Hv. Qed.

Lemma valid_index_range (n : Z) :
  valid_index n = true <-> 0 <= n /\ n + 1 < SizeT.modulus.
Proof. unfold valid_index. rewrite andb_true_iff, Z.leb_le, Z.ltb_lt. tauto. Qed.

Lemma log2_below_bits (v : Z) : 0 < v < SizeT.modulus -> 0 <= Z.log2 v < SizeT.bits.
Proof.
  intros [Hpos Hlt]. split; [apply Z.log2_nonneg |].
  apply Z.log2_lt_pow2; assumption.
Qed.

Lemma segment_log2 (n : Z) :
  valid_index n = true -> segment n = Z.log2 (n + 1).
Proof.
  intros Hn. apply valid_index_range in Hn. destruct Hn as [H0 Hlt].
  unfold segment. rewrite add_exact by lia.
  rewrite GetValueBitCount_log2 by lia.
  pose proof (log2_below_bits (n + 1)) as Hb. unfold SizeT.bits in Hb.
  rewrite sub_exact; [lia |]. rewrite modulus_value. lia.
Qed.

Lemma segment_range (n : Z) :
  valid_index n = true -> 0 <= segment n < slots.
Proof.
  intros Hn. rewrite segment_log2 by exact Hn.
  apply valid_index_range in Hn. apply log2_below_bits. lia.
Qed.

Lemma segment_brackets (n : Z) :
  valid_index n = true -> 2 ^ segment n <= n + 1 < 2 ^ (segment n + 1).
Proof.
  intros Hn. rewrite segment_log2 by exact Hn.
  apply valid_index_range in Hn.
  pose proof (Z.log2_spec (n + 1)). lia.
Qed.

Lemma offset_exact (n : Z) :
  valid_index n = true -> offset n = n + 1 - 2 ^ segment n.
Proof.
  intros Hn. pose proof (segment_range n Hn) as Hr.
  pose proof (segment_brackets n Hn) as Hb.
  apply valid_index_range in Hn.
  unfold offset. rewrite add_exact by lia.
  rewrite shl_one by exact Hr.
  apply sub_exact. lia.
Qed.

(** C3.  For [n] with [n + 1] a [size_t], [Get(n)] takes segment
    [i = bit-length(n + 1) - 1], the position of the highest set bit of
    [n + 1], and the element at [n + 1 - 2^i] of it, which is one of the
    [2^i] elements the segment is allocated with; two indices that get the
    same segment and the same element are the same index. *)
Theorem Get_addressing (n m : Z) :
  valid_index n = true -> valid_index m = true ->
  GetValueBitCount (n + 1) = Z.log2 (n + 1) + 1
  /\ segment n = GetValueBitCount (n + 1) - 1
  /\ 0 <= segment n < slots
  /\ offset n = n + 1 - 2 ^ segment n
  /\ 0 <= offset n < 2 ^ segment n
  /\ SizeT.shl 1 (segment n) = 2 ^ segment n
  /\ (segment n = segment m -> offset n = offset m -> n = m).
Proof.
  intros Hn Hm.
  pose proof (segment_log2 n Hn) as Hs.
  pose proof (segment_range n Hn) as Hr.
  pose proof (segment_brackets n Hn) as Hb.
  pose proof (offset_exact n Hn) as Ho.
  pose proof (offset_exact m Hm) as Hom.
  pose proof (proj1 (valid_index_range n) Hn) as Hv.
  assert (Hbits : GetValueBitCount (n + 1) = Z.log2 (n + 1) + 1)
    by (apply GetValueBitCount_log2; lia).
  rewrite Z.pow_add_r in Hb by lia. change (2 ^ 1) with 2 in Hb.
  split; [exact Hbits |].
  split; [lia |].
  split; [exact Hr |].
  split; [exact Ho |].
  split; [lia |].
  split; [apply shl_one; exact Hr |].
  intros Hseg Hoff. rewrite Ho, Hom, Hseg in Hoff. lia.
Qed.

Lemma Get_addressing_example :
  segment 5 = GetValueBitCount (5 + 1) - 1 /\ offset 5 = 5 + 1 - 2 ^ segment 5
  /\ (segment 5 = segment 6 -> offset 5 = offset 6 -> 5 = 6).
Proof.
  pose proof (Get_addressing 5 6 eq_refl eq_refl) as H.
  repeat split; apply H.
Defined.

End Addressing.

(** ** The request builders *)

Section BuilderFacts.

Import Http.

(** *** Decimal digits *)


Lemma digits_loop_length (fuel : nat) :
  forall n acc, (length (digits_loop fuel n acc) <= fuel + length acc)%nat.
Proof.
  induction fuel as [| fuel IH]; intros n acc; [simpl; lia |].
  cbn [digits_loop].
  destruct (n / 10 =? 0).
  - simpl. lia.
  - etransitivity; [apply IH |]. simpl. lia.
Qed.

Lemma ToString_length (n : Z) : (length (ToString n) <= 20)%nat.
Proof.
  unfold ToString. etransitivity; [apply digits_loop_length |]. simpl. lia.
Qed.





(** *** The builders' monad and the cursor *)

Lemma bind_assoc {A B C : Type} (c : build A) (f : A -> build B)
  (g : B -> build C) (st : build_state) :
  bind (bind c f) g st = bind c (fun x => bind (f x) g) st.
Proof. unfold bind. destruct (c st) as [[a st'] |]; reflexivity. Qed.

Lemma bind_ret {A B : Type} (a : A) (k : A -> build B) (st : build_state) :
  bind (ret a) k st = k a st.
Proof. reflexivity. Qed.

Lemma nonempty_chars (s : TStringBuf) :
  nonempty s = match chars s with [] => false | _ :: _ => true end.
Proof. unfold nonempty, size. destruct (chars s); reflexivity. Qed.

Lemma splice_written (w s : list ascii) (cap : Z) :
  Z.of_nat (length w) + Z.of_nat (length s) <= cap ->
  splice (w ++ replicate (Z.to_nat cap - length w) zero) (Z.of_nat (length w)) s
  = (w ++ s) ++ replicate (Z.to_nat cap - length (w ++ s)) zero.
Proof.
  intros Hfit. unfold splice.
  rewrite Nat2Z.id, take_app_length, drop_app_add, drop_replicate.
  rewrite length_app, <- app_assoc.
  do 3 f_equal. lia.
Qed.

Lemma DoWrite_written (w s : list ascii) (cap : Z) (ps : list TPart) :
  Z.of_nat (length w) + Z.of_nat (length s) <= cap ->
  DoWrite s (written w cap ps) = Ok (tt, written (w ++ s) cap ps).
Proof.
  intros Hfit. unfold DoWrite, written. cbn [out req Buf_ End_ Mem Parts_].
  destruct (Z.leb_spec (Z.of_nat (length w) + Z.of_nat (length s)) cap)
    as [_ | Hgt]; [| lia].
  rewrite splice_written by exact Hfit.
  rewrite length_app, Nat2Z.inj_add. reflexivity.
Qed.

Lemma DoWriteC_written (w : list ascii) (c : ascii) (cap : Z)
  (ps : list TPart) :
  Z.of_nat (length w) + 1 <= cap ->
  DoWriteC c (written w cap ps) = Ok (tt, written (w ++ [c]) cap ps).
Proof.
  intros Hfit. unfold DoWriteC, written. cbn [out req Buf_ End_ Mem Parts_].
  destruct (Z.ltb_spec (Z.of_nat (length w)) cap) as [_ | Hge]; [| lia].
  rewrite splice_written by (simpl; lia).
  rewrite length_app, Nat2Z.inj_add. reflexivity.
Qed.

Lemma bind_DoWrite {B : Type} (w s : list ascii) (cap : Z) (ps : list TPart)
  (k : unit -> build B) :
  Z.of_nat (length (w ++ s)) <= cap ->
  bind (DoWrite s) k (written w cap ps) = k tt (written (w ++ s) cap ps).
Proof.
  intros Hfit. rewrite length_app, Nat2Z.inj_add in Hfit.
  unfold bind. rewrite DoWrite_written by exact Hfit. reflexivity.
Qed.

Lemma bind_DoWriteC {B : Type} (w : list ascii) (c : ascii) (cap : Z)
  (ps : list TPart) (k : unit -> build B) :
  Z.of_nat (length (w ++ [c])) <= cap ->
  bind (DoWriteC c) k (written w cap ps) = k tt (written (w ++ [c]) cap ps).
Proof.
  intros Hfit. rewrite length_app, Nat2Z.inj_add in Hfit.
  unfold bind. rewrite DoWriteC_written by exact Hfit. reflexivity.
Qed.

Lemma new_written (cap : Z) :
  {| req := new_TRequestData cap; out := {| Buf_ := 0; End_ := cap |} |}
  = written [] cap [].
Proof. unfold written, new_TRequestData. simpl. rewrite Nat.sub_0_r. reflexivity. Qed.

(** *** What the builders leave in the request *)

Lemma GET_text_length (service data host port : list ascii) :
  Z.of_nat (length (GET_text service data host port))
  = 26 + Z.of_nat (length service)
    + match data with [] => 0 | _ :: _ => 1 + Z.of_nat (length data) end
    + Z.of_nat (length host)
    + match port with [] => 0 | _ :: _ => 1 + Z.of_nat (length port) end.
Proof.
  unfold GET_text. rewrite !length_app.
  destruct data, port; simpl length; lia.
Qed.

Lemma POST_header_length (service host port digits : list ascii) :
  Z.of_nat (length (POST_header service host port digits))
  = 45 + Z.of_nat (length service) + Z.of_nat (length host)
    + match port with [] => 0 | _ :: _ => 1 + Z.of_nat (length port) end
    + Z.of_nat (length digits).
Proof.
  unfold POST_header. rewrite !length_app.
  destruct port; simpl length; lia.
Qed.

Lemma finish_one_part (w : list ascii) (cap : Z) :
  match bind Buf_offset (fun n => AddPart Mem_begin n) (written w cap []) with
  | Ok (_, st) => Ok (req st)
  | StreamExhausted => StreamExhausted
  end
  = Ok {| Mem := w ++ replicate (Z.to_nat cap - length w) zero;
          Parts_ := [ {| buf := Mem_begin; len := Z.of_nat (length w) |} ] |}.
Proof. reflexivity. Qed.

Lemma finish_two_parts (w : list ascii) (cap : Z) (b : ptr) (n : Z) :
  match bind Buf_offset
          (fun m => bind (AddPart Mem_begin m) (fun _ => AddPart b n))
          (written w cap []) with
  | Ok (_, st) => Ok (req st)
  | StreamExhausted => StreamExhausted
  end
  = Ok {| Mem := w ++ replicate (Z.to_nat cap - length w) zero;
          Parts_ := [ {| buf := Mem_begin; len := Z.of_nat (length w) |};
                      {| buf := b; len := n |} ] |}.
Proof. reflexivity. Qed.

Ltac fits :=
  match goal with
  | H : Z.of_nat (length _) <= ?cap |- Z.of_nat (length _) <= ?cap =>
      etransitivity; [| exact H];
      apply inj_le; rewrite ?length_app; simpl length; lia
  end.

Ltac write :=
  first [ rewrite bind_DoWrite by fits
        | rewrite bind_DoWriteC by fits
        | rewrite bind_ret
        | rewrite bind_assoc ];
  cbv beta.

Ltac written_is text :=
  match goal with
  | |- context [written ?w _ _] =>
      replace w with text by (rewrite <- ?app_assoc; reflexivity)
  end.

Lemma bind_DoWrite_over {B : Type} (w s : list ascii) (cap : Z)
  (ps : list TPart) (k : unit -> build B) :
  cap < Z.of_nat (length (w ++ s)) ->
  bind (DoWrite s) k (written w cap ps) = StreamExhausted.
Proof.
  intros Hover. rewrite length_app, Nat2Z.inj_add in Hover.
  unfold bind, DoWrite, written. cbn [out req Buf_ End_ Mem Parts_].
  destruct (Z.leb_spec (Z.of_nat (length w) + Z.of_nat (length s)) cap);
    [lia | reflexivity].
Qed.

Lemma bind_DoWriteC_over {B : Type} (w : list ascii) (c : ascii) (cap : Z)
  (ps : list TPart) (k : unit -> build B) :
  cap < Z.of_nat (length (w ++ [c])) ->
  bind (DoWriteC c) k (written w cap ps) = StreamExhausted.
Proof.
  intros Hover. rewrite length_app, Nat2Z.inj_add in Hover.
  unfold bind, DoWriteC, written. cbn [out req Buf_ End_ Mem Parts_].
  destruct (Z.ltb_spec (Z.of_nat (length w)) cap);
    [simpl length in Hover; lia | reflexivity].
Qed.

(** One write of a builder: it fits and the builder goes on, or it does not
    and the builder ends. *)
Ltac write_or_end :=
  first
    [ rewrite bind_assoc
    | rewrite bind_ret
    | match goal with
      | |- context [bind (DoWrite ?s) _ (written ?w ?cap ?ps)] =>
          destruct (Z_le_gt_dec (Z.of_nat (length (w ++ s))) cap);
          [ rewrite bind_DoWrite by assumption
          | rewrite bind_DoWrite_over by lia; reflexivity ]
      | |- context [bind (DoWriteC ?c) _ (written ?w ?cap ?ps)] =>
          destruct (Z_le_gt_dec (Z.of_nat (length (w ++ [c]))) cap);
          [ rewrite bind_DoWriteC by assumption
          | rewrite bind_DoWriteC_over by lia; reflexivity ]
      end ];
  cbv beta.

Lemma memSize_nonneg :
  (forall msg loc, 0 <= TRequestGet_memSize msg loc)
  /\ (forall loc, 0 <= TRequestPost_memSize loc).
Proof.
  split; intros; unfold TRequestGet_memSize, TRequestPost_memSize, SizeT.add,
    SizeT.wrap; apply Z.mod_pos_bound; reflexivity.
Qed.

Lemma TRequestGet_memSize_exact (msg : TMessage) (loc : TParsedLocation) :
  SizeT.in_range (50 + size (Service loc) + size (Data msg) + size (Host loc)) ->
  TRequestGet_memSize msg loc
  = 50 + size (Service loc) + size (Data msg) + size (Host loc).
Proof.
  intros Hcap. unfold TRequestGet_memSize, SizeT.in_range, size in *.
  rewrite (add_exact 50) by lia.
  rewrite (add_exact (50 + _)) by lia.
  apply add_exact. lia.
Qed.

Lemma TRequestPost_memSize_exact (loc : TParsedLocation) :
  SizeT.in_range (100 + size (Service loc) + size (Host loc)) ->
  TRequestPost_memSize loc = 100 + size (Service loc) + size (Host loc).
Proof.
  intros Hcap. unfold TRequestPost_memSize, SizeT.in_range, size in *.
  rewrite (add_exact 100) by lia.
  apply add_exact. lia.
Qed.

(** The GET builder when its text fits the region it has allocated. *)
Lemma TRequestGet_Build_fit (msg : TMessage) (loc : TParsedLocation) :
  let text := GET_text (chars (Service loc)) (chars (Data msg))
                (chars (Host loc)) (chars (Port loc)) in
  let cap := TRequestGet_memSize msg loc in
  Z.of_nat (length text) <= cap ->
  TRequestGet_Build msg loc
  = Ok {| Mem := text ++ replicate (Z.to_nat cap - length text) zero;
          Parts_ := [ {| buf := Mem_begin; len := Z.of_nat (length text) |} ] |}.
Proof.
  intros text cap Hfit.
  unfold TRequestGet_Build. fold (TRequestGet_memSize msg loc). fold cap.
  clearbody cap.
  unfold run_build. rewrite new_written.
  rewrite !nonempty_chars.
  subst text. unfold GET_text in *.
  destruct (chars (Data msg)) as [| d ds];
    destruct (chars (Port loc)) as [| p pp];
    repeat write;
    match type of Hfit with
    | Z.of_nat (length ?text) <= _ => written_is text
    end;
    apply finish_one_part.
Qed.

(** And when it does not. *)
Lemma TRequestGet_Build_short (msg : TMessage) (loc : TParsedLocation) :
  TRequestGet_memSize msg loc
  < Z.of_nat (length (GET_text (chars (Service loc)) (chars (Data msg))
                        (chars (Host loc)) (chars (Port loc)))) ->
  TRequestGet_Build msg loc = StreamExhausted.
Proof.
  intros Hover.
  unfold TRequestGet_Build. fold (TRequestGet_memSize msg loc).
  set (cap := TRequestGet_memSize msg loc) in *. clearbody cap.
  unfold run_build. rewrite new_written.
  rewrite !nonempty_chars. unfold GET_text in Hover.
  destruct (chars (Data msg)) as [| d ds];
    destruct (chars (Port loc)) as [| p pp];
    repeat write_or_end;
    exfalso; rewrite ?length_app in *; simpl length in *; lia.
Qed.

Lemma TRequestPost_Build_fit (msg : TMessage) (loc : TParsedLocation) :
  let header := POST_header (chars (Service loc)) (chars (Host loc))
                  (chars (Port loc)) (ToString (size (Data msg))) in
  let cap := TRequestPost_memSize loc in
  Z.of_nat (length header) <= cap ->
  TRequestPost_Build msg loc
  = Ok {| Mem := header ++ replicate (Z.to_nat cap - length header) zero;
          Parts_ := [ {| buf := Mem_begin; len := Z.of_nat (length header) |};
                      {| buf := c_str (Data msg); len := size (Data msg) |} ] |}.
Proof.
  intros header cap Hfit.
  unfold TRequestPost_Build. fold (TRequestPost_memSize loc). fold cap.
  clearbody cap.
  unfold run_build. rewrite new_written.
  rewrite !nonempty_chars.
  subst header. unfold POST_header in *.
  destruct (chars (Port loc)) as [| p pp];
    repeat write;
    match type of Hfit with
    | Z.of_nat (length ?text) <= _ => written_is text
    end;
    apply finish_two_parts.
Qed.

Lemma TRequestPost_Build_short (msg : TMessage) (loc : TParsedLocation) :
  TRequestPost_memSize loc
  < Z.of_nat (length (POST_header (chars (Service loc)) (chars (Host loc))
                        (chars (Port loc)) (ToString (size (Data msg))))) ->
  TRequestPost_Build msg loc = StreamExhausted.
Proof.
  intros Hover.
  unfold TRequestPost_Build. fold (TRequestPost_memSize loc).
  set (cap := TRequestPost_memSize loc) in *. clearbody cap.
  unfold run_build. rewrite new_written.
  rewrite !nonempty_chars. unfold POST_header in Hover.
  destruct (chars (Port loc)) as [| p pp];
    repeat write_or_end;
    exfalso; rewrite ?length_app in *; simpl length in *; lia.
Qed.

Lemma TRequestGet_Build_ok (msg : TMessage) (loc : TParsedLocation) :
  let text := GET_text (chars (Service loc)) (chars (Data msg))
                (chars (Host loc)) (chars (Port loc)) in
  let cap := 50 + size (Service loc) + size (Data msg) + size (Host loc) in
  SizeT.in_range cap ->
  Z.of_nat (length text) <= cap ->
  TRequestGet_Build msg loc
  = Ok {| Mem := text ++ replicate (Z.to_nat cap - length text) zero;
          Parts_ := [ {| buf := Mem_begin; len := Z.of_nat (length text) |} ] |}.
Proof.
  intros text cap Hcap Hfit. subst cap.
  rewrite <- (TRequestGet_memSize_exact msg loc Hcap) in *.
  apply TRequestGet_Build_fit. exact Hfit.
Qed.

Lemma TRequestPost_Build_ok (msg : TMessage) (loc : TParsedLocation) :
  let header := POST_header (chars (Service loc)) (chars (Host loc))
                  (chars (Port loc)) (ToString (size (Data msg))) in
  let cap := 100 + size (Service loc) + size (Host loc) in
  SizeT.in_range cap ->
  Z.of_nat (length header) <= cap ->
  TRequestPost_Build msg loc
  = Ok {| Mem := header ++ replicate (Z.to_nat cap - length header) zero;
          Parts_ := [ {| buf := Mem_begin; len := Z.of_nat (length header) |};
                      {| buf := c_str (Data msg); len := size (Data msg) |} ] |}.
Proof.
  intros header cap Hcap Hfit. subst cap.
  rewrite <- (TRequestPost_memSize_exact loc Hcap) in *.
  apply TRequestPost_Build_fit. exact Hfit.
Qed.

(** *** What [SendTo] reads *)

Lemma load_Mem_prefix (caller : memory) (w pad : list ascii)
  (ps : list TPart) :
  load caller {| Mem := w ++ pad; Parts_ := ps |} Mem_begin
    (Z.of_nat (length w)) = Some w.
Proof.
  unfold load. cbn [blk ofs Mem_begin Mem].
  destruct (Z.eqb_spec (Z.of_nat (length w)) 0) as [Hz | Hnz].
  - destruct w; [reflexivity | discriminate Hz].
  - rewrite length_app, Nat2Z.inj_add.
    destruct (Z.leb_spec 0 (Z.of_nat (length w))); [| lia].
    destruct (Z.leb_spec (0 + Z.of_nat (length w))
                (Z.of_nat (length w) + Z.of_nat (length pad))); [| lia].
    change (0 <=? 0) with true. cbn [andb].
    change (Z.to_nat 0) with 0%nat.
    rewrite drop_0, Nat2Z.id, take_app_length. reflexivity.
Qed.

Lemma load_alive (caller : memory) (r : TRequestData) (s : TStringBuf) :
  alive caller s -> load caller r (c_str s) (size s) = Some (chars s).
Proof.
  intros (id & Hblk & Hofs & Hchars & Hend).
  unfold load, size in *. rewrite Hblk.
  destruct (Z.eqb_spec (Z.of_nat (length (chars s))) 0) as [Hz | Hnz].
  - destruct (chars s); [reflexivity | discriminate Hz].
  - destruct (Z.leb_spec 0 (ofs (c_str s))); [| lia].
    destruct (Z.leb_spec 0 (Z.of_nat (length (chars s)))); [| lia].
    destruct (Z.leb_spec (ofs (c_str s) + Z.of_nat (length (chars s)))
                (Z.of_nat (length (caller id)))); [| lia].
    cbn [andb]. rewrite Nat2Z.id, Hchars. reflexivity.
Qed.



(** *** The size estimates *)






Lemma Ok_inj {A : Type} (a b : A) : Ok a = Ok b -> a = b.
Proof. intros H. injection H as H. exact H. Qed.










(** C7.  The FULL builder returns a request with no scratch region and one
    part, the address and the length of the message's data, whatever the
    location; what is sent is the data, byte for byte; for empty data the
    part has length 0 and nothing is sent. *)
Theorem TRequestFull_Build_passthrough (msg : TMessage)
  (loc : TParsedLocation) :
  TRequestFull_Build msg loc
  = Ok {| Mem := [];
          Parts_ := [ {| buf := c_str (Data msg); len := size (Data msg) |} ] |}
  /\ (forall loc', TRequestFull_Build msg loc' = TRequestFull_Build msg loc)
  /\ (forall caller req io,
        TRequestFull_Build msg loc = Ok req ->
        alive caller (Data msg) ->
        load caller req (c_str (Data msg)) (size (Data msg))
        = Some (chars (Data msg))
        /\ SendTo caller req io = Some (io ++ chars (Data msg)))
  /\ (forall caller req io,
        TRequestFull_Build msg loc = Ok req ->
        chars (Data msg) = [] ->
        Parts_ req = [ {| buf := c_str (Data msg); len := 0 |} ]
        /\ SendTo caller req io = Some io).
Proof.
  split; [reflexivity |].
  split; [reflexivity |].
  split.
  - intros caller req io Hbuild Halive.
    injection Hbuild as <-.
    split; [apply load_alive; exact Halive |].
    unfold SendTo. cbn [Parts_ add_part new_TRequestData app write_parts buf len].
    rewrite (load_alive _ _ _ Halive). reflexivity.
  - intros caller req io Hbuild Hempty.
    injection Hbuild as <-.
    unfold SendTo, size, load.
    cbn [Parts_ add_part new_TRequestData app write_parts buf len].
    rewrite Hempty. simpl. rewrite app_nil_r. split; reflexivity.
Qed.

Lemma TRequestFull_Build_example :
  exists req,
    TRequestFull_Build (message "full://example.com/" "GET / HTTP/1.1")
      (location "full" "example.com" "" "") = Ok req
    /\ SendTo (memory_of_data "GET / HTTP/1.1") req []
       = Some (AsStringBuf "GET / HTTP/1.1").
Proof.
  destruct (TRequestFull_Build_passthrough
              (message "full://example.com/" "GET / HTTP/1.1")
              (location "full" "example.com" "" ""))
    as (Hbuild & _ & Hsend & _).
  eexists. split; [exact Hbuild |].
  apply (Hsend (memory_of_data "GET / HTTP/1.1") _ [] Hbuild).
  exists 7%nat. vm_compute.
  split; [reflexivity |]. split; [discriminate |].
  split; [reflexivity | discriminate].
Defined.

End BuilderFacts.

(** ** The lock-free sequence *)

Section SequenceFacts.

Import LockFreeSequence.

Lemma slot_seg (T : list (option nat)) (n : Z) :
  valid_index n = true -> slot T (segment n) = T !! Z.to_nat (segment n).
Proof.
  intros Hn. pose proof (segment_range n Hn) as Hr. unfold slot.
  destruct (Z.leb_spec 0 (segment n)); [| lia].
  destruct (Z.ltb_spec (segment n) slots); [| lia].
  reflexivity.
Qed.

Lemma seg_lt (f : frame) :
  valid_index (index f) = true -> (seg f < Z.to_nat slots)%nat.
Proof.
  intros Hn. pose proof (segment_range _ Hn) as Hr. unfold seg. lia.
Qed.

(** The frames after thread [k] has moved on. *)
Lemma lookup_moved (ts : list frame) (k o : nat) (f f' g : frame) :
  ts !! k = Some f -> ts !! o = Some g ->
  <[k := f']> ts !! o = Some (if decide (o = k) then f' else g).
Proof.
  intros Hk Ho. destruct (decide (o = k)) as [-> | Hne].
  - apply list_lookup_insert_eq. eapply lookup_lt_Some. exact Hk.
  - rewrite list_lookup_insert_ne by congruence. exact Ho.
Qed.

Lemma lookup_moved_inv (ts : list frame) (k o : nat) (f f' g : frame) :
  ts !! k = Some f -> <[k := f']> ts !! o = Some g ->
  (o = k /\ g = f') \/ (o <> k /\ ts !! o = Some g).
Proof.
  intros Hk Ho. destruct (decide (o = k)) as [-> | Hne].
  - rewrite list_lookup_insert_eq in Ho by (eapply lookup_lt_Some; exact Hk).
    left. split; congruence.
  - rewrite list_lookup_insert_ne in Ho by congruence. right. split; assumption.
Qed.

Lemma new_sequence_invariant : invariant new_sequence.
Proof.
  unfold invariant, new_sequence. cbn [T_ arrays threads].
  split; [apply length_replicate |].
  split; [intros k f Hk; rewrite lookup_nil in Hk; discriminate |].
  split.
  - intros j p Hj. apply lookup_replicate in Hj. destruct Hj as [Hj _].
    discriminate.
  - intros a c Ha. rewrite lookup_nil in Ha. discriminate.
Qed.

Lemma call_invariant (n : Z) (s : state) :
  valid_index n = true -> invariant s -> invariant (call n s).
Proof.
  intros Hn (Hlen & Hfr & Hpub & Harr).
  unfold invariant, call. cbn [T_ arrays threads].
  split; [exact Hlen |].
  split; [| split].
  - intros k f Hk. apply lookup_app_Some in Hk.
    destruct Hk as [Hk | [_ Hk]]; [apply Hfr; exact Hk |].
    apply list_lookup_singleton_Some in Hk. destruct Hk as [_ <-].
    split; [exact Hn | exact I].
  - intros j p Hj. destruct (Hpub j p Hj) as (k & f & Hh & Hk & Hseg & Hat).
    exists k, f. split; [exact Hh |].
    split; [apply lookup_app_l_Some; exact Hk | split; assumption].
  - intros a c Ha. destruct (Harr a c Ha) as [(f & Hf & Hel) Hst].
    split; [exists f; split; [apply lookup_app_l_Some; exact Hf | exact Hel] |].
    destruct Hst as [[Hfree [(g & Hg & Hat) | Hslot]] | Hfreed].
    + left. split; [exact Hfree |]. left. exists g.
      split; [apply lookup_app_l_Some; exact Hg | exact Hat].
    + left. split; [exact Hfree |]. right. exact Hslot.
    + right. exact Hfreed.
Qed.

(** A step of thread [k] that leaves the slots and the arrays as they are. *)
Lemma pc_change_invariant (s : state) (k : nat) (f : frame) (pc' : pc) :
  invariant s -> threads s !! k = Some f ->
  frame_ok (T_ s) (arrays s) k {| index := index f; at_ := pc' |} ->
  (forall p, at_ f = Done (Some p) -> pc' = Done (Some p)) ->
  (forall a, at_ f = AtCas a \/ at_ f = AtDelete a ->
             pc' = AtCas a \/ pc' = AtDelete a) ->
  invariant {| T_ := T_ s; arrays := arrays s;
               threads := <[k := {| index := index f; at_ := pc' |}]> (threads s) |}.
Proof.
  intros (Hlen & Hfr & Hpub & Harr) Hk Hnew Hdone Hheld.
  unfold invariant. cbn [T_ arrays threads].
  split; [exact Hlen |].
  split; [| split].
  - intros o g Ho.
    destruct (lookup_moved_inv _ _ _ _ _ _ Hk Ho) as [[-> ->] | [_ Ho']].
    + exact Hnew.
    + apply Hfr. exact Ho'.
  - intros j p Hj. destruct (Hpub j p Hj) as (o & g & Hh & Ho & Hseg & Hat).
    pose proof (lookup_moved _ k o f {| index := index f; at_ := pc' |} g Hk Ho)
      as Hlook.
    destruct (decide (o = k)) as [-> | Hne].
    + assert (g = f) as -> by congruence.
      eexists _, _. split; [| split; [exact Hlook | split]].
      * exact Hh.
      * exact Hseg.
      * apply Hdone. exact Hat.
    + exists o, g. auto.
  - intros a c Ha. destruct (Harr a c Ha) as [(g & Hg & Hel) Hst].
    split.
    + pose proof (lookup_moved _ k _ f {| index := index f; at_ := pc' |} g Hk Hg)
        as Hlook.
      destruct (decide (owner c = k)) as [Heq | Hne].
      * rewrite Heq in Hg. assert (g = f) as -> by congruence.
        eexists. split; [exact Hlook | exact Hel].
      * exists g. auto.
    + destruct Hst as [[Hfree [(g' & Hg' & Hat) | Hslot]] | Hfreed].
      * left. split; [exact Hfree |]. left.
        pose proof (lookup_moved _ k _ f {| index := index f; at_ := pc' |} g' Hk Hg')
          as Hlook.
        destruct (decide (owner c = k)) as [Heq | Hne].
        -- rewrite Heq in Hg'. assert (g' = f) as -> by congruence.
           eexists. split; [exact Hlook |]. apply Hheld. exact Hat.
        -- exists g'. auto.
      * left. split; [exact Hfree |]. right. exact Hslot.
      * right. exact Hfreed.
Qed.

(** What thread [o] relies on survives a change of the slots and the arrays
    that keeps the arrays it holds and the slot it has seen filled. *)
Lemma frame_ok_change (T T' : list (option nat)) (h h' : list array)
  (o : nat) (g : frame) :
  frame_ok T h o g ->
  (forall a c, at_ g = AtCas a \/ at_ g = AtDelete a ->
               h !! a = Some c -> h' !! a = Some c) ->
  (forall a, at_ g = AtCas a \/ at_ g = AtDelete a ->
             (forall j, T !! j <> Some (Some a)) ->
             forall j, T' !! j <> Some (Some a)) ->
  (forall p, T !! seg g = Some (Some p) -> T' !! seg g = Some (Some p)) ->
  frame_ok T' h' o g.
Proof.
  intros [Hvalid Hpc] Hh HT Hslot. split; [exact Hvalid |].
  destruct (at_ g) as [| | nt | nt | | r | |] eqn:Hat; try exact Hpc.
  - destruct Hpc as [Hnt Hfree]. split; [eapply Hh; eauto | eapply HT; eauto].
  - destruct Hpc as [[Hnt Hfree] [p Hp]].
    split; [split; [eapply Hh; eauto | eapply HT; eauto] |].
    exists p. apply Hslot. exact Hp.
  - destruct Hpc as [p Hp]. exists p. apply Hslot. exact Hp.
  - destruct Hpc as (p & Hr & Hp). exists p. split; [exact Hr |].
    apply Hslot. exact Hp.
Qed.

Lemma new_invariant (s : state) (k : nat) (f : frame) :
  invariant s -> threads s !! k = Some f -> at_ f = AtNew ->
  invariant
    {| T_ := T_ s;
       arrays := arrays s ++ [ {| elements := SizeT.shl 1 (segment (index f));
                                  owner := k; freed_by := [] |} ];
       threads := <[k := {| index := index f;
                            at_ := AtCas (length (arrays s)) |}]> (threads s) |}.
Proof.
  intros (Hlen & Hfr & Hpub & Harr) Hk Hat.
  unfold invariant. cbn [T_ arrays threads].
  split; [exact Hlen |].
  split; [| split].
  - intros o g Ho.
    destruct (lookup_moved_inv _ _ _ _ _ _ Hk Ho) as [[-> ->] | [_ Ho']].
    + split; [apply (Hfr k f Hk) |]. cbn [at_ index]. split.
      * apply list_lookup_middle. reflexivity.
      * intros j Hj. destruct (Hpub j _ Hj) as (o & g & Hh & _).
        apply lookup_lt_Some in Hh. lia.
    + apply (frame_ok_change (T_ s) (T_ s) (arrays s)); auto.
      intros a c _ Ha. apply lookup_app_l_Some. exact Ha.
  - intros j p Hj. destruct (Hpub j p Hj) as (o & g & Hh & Ho & Hseg & Hdone).
    exists o, g. split; [apply lookup_app_l_Some; exact Hh |].
    split; [| auto].
    rewrite list_lookup_insert_ne; [exact Ho |]. congruence.
  - intros a c Ha. apply lookup_app_Some in Ha.
    destruct Ha as [Ha | [Hge Ha]].
    + destruct (Harr a c Ha) as [(g & Hg & Hel) Hst]. split.
      * pose proof (lookup_moved _ k _ f
                      {| index := index f; at_ := AtCas (length (arrays s)) |}
                      g Hk Hg) as Hlook.
        destruct (decide (owner c = k)) as [Heq | Hne].
        -- rewrite Heq in Hg. assert (g = f) as -> by congruence.
           eexists. split; [exact Hlook | exact Hel].
        -- exists g. auto.
      * destruct Hst as [[Hfree [(g' & Hg' & Hheld) | Hslot]] | Hfreed].
        -- left. split; [exact Hfree |]. left. exists g'.
           split; [| exact Hheld].
           rewrite list_lookup_insert_ne; [exact Hg' |].
           intros Heq. rewrite <- Heq, Hk in Hg'. injection Hg' as <-.
           rewrite Hat in Hheld. destruct Hheld; discriminate.
        -- left. split; [exact Hfree |]. right. exact Hslot.
        -- right. exact Hfreed.
    + apply list_lookup_singleton_Some in Ha. destruct Ha as [Hz <-].
      assert (a = length (arrays s)) as -> by lia.
      cbn [owner elements freed_by].
      assert (Hlook : <[k := {| index := index f;
                                at_ := AtCas (length (arrays s)) |}]> (threads s) !! k
                      = Some {| index := index f;
                                at_ := AtCas (length (arrays s)) |}).
      { apply list_lookup_insert_eq. eapply lookup_lt_Some. exact Hk. }
      split; [eexists; split; [exact Hlook | reflexivity] |].
      left. split; [reflexivity |]. left.
      eexists. split; [exact Hlook |]. left. reflexivity.
Qed.

Lemma held_by_one (h : list array) (a : nat) (e e' : Z) (k k' : nat) :
  h !! a = Some {| elements := e; owner := k; freed_by := [] |} ->
  h !! a = Some {| elements := e'; owner := k'; freed_by := [] |} ->
  k = k'.
Proof. intros H1 H2. rewrite H1 in H2. injection H2 as _ Hk. exact Hk. Qed.

Lemma held_array (T : list (option nat)) (h : list array) (o : nat)
  (g : frame) (a : nat) :
  frame_ok T h o g -> at_ g = AtCas a \/ at_ g = AtDelete a ->
  holds T h o g a.
Proof.
  intros [_ Hpc] [Hat | Hat]; rewrite Hat in Hpc; [exact Hpc | apply Hpc].
Qed.

Lemma cas_invariant (s : state) (k : nat) (f : frame) (nt : nat) :
  invariant s -> threads s !! k = Some f -> at_ f = AtCas nt ->
  T_ s !! seg f = Some None ->
  invariant
    {| T_ := <[seg f := Some nt]> (T_ s);
       arrays := arrays s;
       threads := <[k := {| index := index f;
                            at_ := Done (Some nt) |}]> (threads s) |}.
Proof.
  intros (Hlen & Hfr & Hpub & Harr) Hk Hat Hempty.
  pose proof (Hfr k f Hk) as Hf.
  pose proof (held_array _ _ _ _ _ Hf (or_introl Hat)) as [Hnt Hout].
  assert (Hi : (seg f < length (T_ s))%nat)
    by (eapply lookup_lt_Some; exact Hempty).
  unfold invariant. cbn [T_ arrays threads].
  split; [rewrite length_insert; exact Hlen |].
  split; [| split].
  - intros o g Ho.
    destruct (lookup_moved_inv _ _ _ _ _ _ Hk Ho) as [[-> ->] | [Hne Ho']].
    + split; [apply Hf |]. cbn [at_]. exists nt. split; [reflexivity |].
      apply list_lookup_insert_eq. exact Hi.
    + apply (frame_ok_change (T_ s) _ (arrays s)); auto.
      * intros a Hheld Hfree j Hj.
        destruct (decide (j = seg f)) as [-> | Hj'].
        -- rewrite list_lookup_insert_eq in Hj by exact Hi.
           injection Hj as <-.
           pose proof (held_array _ _ _ _ _ (Hfr o g Ho') Hheld) as [Hnt' _].
           apply Hne. symmetry. eapply held_by_one; eassumption.
        -- rewrite list_lookup_insert_ne in Hj by congruence.
           exact (Hfree j Hj).
      * intros p Hp. rewrite list_lookup_insert_ne; [exact Hp |].
        intros Heq. rewrite <- Heq, Hempty in Hp. discriminate.
  - intros j p Hj. destruct (decide (j = seg f)) as [-> | Hj'].
    + rewrite list_lookup_insert_eq in Hj by exact Hi. injection Hj as <-.
      exists k, {| index := index f; at_ := Done (Some nt) |}.
      split; [exact Hnt |].
      split; [apply list_lookup_insert_eq; eapply lookup_lt_Some; exact Hk |].
      split; reflexivity.
    + rewrite list_lookup_insert_ne in Hj by congruence.
      destruct (Hpub j p Hj) as (o & g & Hh & Ho & Hseg & Hdone).
      exists o, g. split; [exact Hh |]. split; [| auto].
      rewrite list_lookup_insert_ne; [exact Ho |].
      intros <-. rewrite Hk in Ho. injection Ho as <-.
      rewrite Hat in Hdone. discriminate.
  - intros a c Ha. destruct (Harr a c Ha) as [(g & Hg & Hel) Hst]. split.
    + pose proof (lookup_moved _ k _ f
                    {| index := index f; at_ := Done (Some nt) |} g Hk Hg)
        as Hlook.
      destruct (decide (owner c = k)) as [Heq | Hne].
      * rewrite Heq in Hg. assert (g = f) as -> by congruence.
        eexists. split; [exact Hlook | exact Hel].
      * exists g. auto.
    + destruct Hst as [[Hfree [(g' & Hg' & Hheld) | [j Hslot]]] | Hfreed].
      * left. split; [exact Hfree |].
        destruct (decide (owner c = k)) as [Heq | Hne].
        -- rewrite Heq, Hk in Hg'. injection Hg' as <-.
           rewrite Hat in Hheld.
           assert (a = nt) as -> by (destruct Hheld; congruence).
           right. exists (seg f). apply list_lookup_insert_eq. exact Hi.
        -- left. exists g'. split; [| exact Hheld].
           rewrite list_lookup_insert_ne by congruence. exact Hg'.
      * left. split; [exact Hfree |]. right. exists j.
        rewrite list_lookup_insert_ne; [exact Hslot |].
        intros <-. rewrite Hempty in Hslot. discriminate.
      * right. exact Hfreed.
Qed.

Lemma delete_invariant (s : state) (k : nat) (f : frame) (nt : nat) :
  invariant s -> threads s !! k = Some f -> at_ f = AtDelete nt ->
  invariant
    {| T_ := T_ s;
       arrays := delete_array (Thread k) nt (arrays s);
       threads := <[k := {| index := index f; at_ := AtGet |}]> (threads s) |}.
Proof.
  intros (Hlen & Hfr & Hpub & Harr) Hk Hat.
  pose proof (Hfr k f Hk) as Hf.
  pose proof (held_array _ _ _ _ _ Hf (or_intror Hat)) as [Hnt Hout].
  unfold invariant, delete_array. cbn [T_ arrays threads].
  split; [exact Hlen |].
  split; [| split].
  - intros o g Ho.
    destruct (lookup_moved_inv _ _ _ _ _ _ Hk Ho) as [[-> ->] | [Hne Ho']].
    + split; [apply Hf | exact I].
    + apply (frame_ok_change (T_ s) (T_ s) (arrays s)); auto.
      intros a c Hheld Ha. rewrite list_lookup_alter_ne; [exact Ha |].
      intros <-.
      pose proof (held_array _ _ _ _ _ (Hfr o g Ho') Hheld) as [Hnt' _].
      apply Hne. symmetry. eapply held_by_one; eassumption.
  - intros j p Hj. destruct (Hpub j p Hj) as (o & g & Hh & Ho & Hseg & Hdone).
    exists o, g. split; [| split; [| auto]].
    + rewrite list_lookup_alter_ne; [exact Hh |].
      intros <-. exact (Hout j Hj).
    + rewrite list_lookup_insert_ne; [exact Ho |].
      intros <-. rewrite Hk in Ho. injection Ho as <-.
      rewrite Hat in Hdone. discriminate.
  - intros a c Ha.
    assert (Hlook : <[k := {| index := index f; at_ := AtGet |}]> (threads s) !! k
                    = Some {| index := index f; at_ := AtGet |}).
    { apply list_lookup_insert_eq. eapply lookup_lt_Some. exact Hk. }
    destruct (decide (a = nt)) as [-> | Hne].
    + rewrite list_lookup_alter_eq, Hnt in Ha. injection Ha as <-.
      cbn [free owner elements freed_by app].
      split; [eexists; split; [exact Hlook | reflexivity] |].
      right. reflexivity.
    + rewrite list_lookup_alter_ne in Ha by congruence.
      destruct (Harr a c Ha) as [(g & Hg & Hel) Hst]. split.
      * pose proof (lookup_moved _ k _ f {| index := index f; at_ := AtGet |}
                      g Hk Hg) as Hlook'.
        destruct (decide (owner c = k)) as [Heq | Hne'].
        -- rewrite Heq in Hg. assert (g = f) as -> by congruence.
           eexists. split; [exact Hlook' | exact Hel].
        -- exists g. auto.
      * destruct Hst as [[Hfree [(g' & Hg' & Hheld) | Hslot]] | Hfreed].
        -- left. split; [exact Hfree |]. left. exists g'.
           split; [| exact Hheld].
           rewrite list_lookup_insert_ne; [exact Hg' |].
           intros Heq. rewrite <- Heq, Hk in Hg'. injection Hg' as <-.
           rewrite Hat in Hheld. destruct Hheld; congruence.
        -- left. split; [exact Hfree |]. right. exact Hslot.
        -- right. exact Hfreed.
Qed.

Lemma step_invariant (k : nat) (s : state) :
  invariant s -> invariant (step k s).
Proof.
  intros Hinv. unfold step.
  destruct (threads s !! k) as [f |] eqn:Hk; [| exact Hinv].
  pose proof Hinv as (Hlen & Hfr & _ & _).
  pose proof (Hfr k f Hk) as Hf. pose proof Hf as [Hvalid Hpc].
  pose proof (seg_lt f Hvalid) as Hseg.
  unfold GetList_step. rewrite slot_seg by exact Hvalid. fold (seg f).
  destruct (at_ f) as [| | nt | nt | | r | |] eqn:Hat.
  - destruct (T_ s !! seg f) as [[p |] |] eqn:Hslot.
    + apply pc_change_invariant; auto.
      * split; [exact Hvalid | exists p; exact Hslot].
      * intros p' H. rewrite Hat in H. discriminate H.
      * intros a [H | H]; rewrite Hat in H; discriminate H.
    + apply pc_change_invariant; auto.
      * split; [exact Hvalid | exact I].
      * intros p' H. rewrite Hat in H. discriminate H.
      * intros a [H | H]; rewrite Hat in H; discriminate H.
    + apply lookup_ge_None_1 in Hslot. lia.
  - destruct (allocatable (segment (index f))).
    + apply new_invariant; assumption.
    + apply pc_change_invariant; auto.
      * split; [exact Hvalid | exact I].
      * intros p' H. rewrite Hat in H. discriminate H.
      * intros a [H | H]; rewrite Hat in H; discriminate H.
  - destruct (T_ s !! seg f) as [[p |] |] eqn:Hslot.
    + apply pc_change_invariant; auto.
      * split; [exact Hvalid |]. split; [exact Hpc | exists p; exact Hslot].
      * intros p' H. rewrite Hat in H. discriminate H.
      * intros a [H | H]; rewrite Hat in H; [| discriminate H].
        injection H as <-. right. reflexivity.
    + apply cas_invariant; assumption.
    + apply lookup_ge_None_1 in Hslot. lia.
  - apply delete_invariant; assumption.
  - destruct Hpc as [p Hp]. rewrite Hp.
    apply pc_change_invariant; auto.
    + split; [exact Hvalid |]. exists p. split; [reflexivity | exact Hp].
    + intros p' H. rewrite Hat in H. discriminate H.
    + intros a [H | H]; rewrite Hat in H; discriminate H.
  - apply pc_change_invariant; auto.
    + split; [exact Hvalid | exact Hpc].
    + intros p' H. rewrite Hat in H. exact H.
    + intros a [H | H]; rewrite Hat in H; discriminate H.
  - apply pc_change_invariant; auto.
    + split; [exact Hvalid | exact I].
    + intros p' H. rewrite Hat in H. discriminate H.
    + intros a [H | H]; rewrite Hat in H; discriminate H.
  - destruct Hpc.
Qed.

Lemma bad_alloc_invariant (k : nat) (s : state) :
  invariant s -> invariant (bad_alloc k s).
Proof.
  intros Hinv. unfold bad_alloc.
  destruct (threads s !! k) as [f |] eqn:Hk; [| exact Hinv].
  destruct (at_ f) eqn:Hat; try exact Hinv.
  pose proof Hinv as (_ & Hfr & _). destruct (Hfr k f Hk) as [Hvalid _].
  apply pc_change_invariant; auto.
  - split; [exact Hvalid | exact I].
  - intros p' H. rewrite Hat in H. discriminate H.
  - intros a [H | H]; rewrite Hat in H; discriminate H.
Qed.

Lemma exec1_invariant (s : state) (e : event) :
  call_ok valid_index e = true -> invariant s -> invariant (exec1 s e).
Proof.
  intros He Hinv. destruct e as [n | k | k]; cbn [exec1 call_ok] in *.
  - apply call_invariant; assumption.
  - apply step_invariant. exact Hinv.
  - apply bad_alloc_invariant. exact Hinv.
Qed.

Lemma exec_cons (e : event) (evs : list event) (s : state) :
  exec (e :: evs) s = exec evs (exec1 s e).
Proof. reflexivity. Qed.

Lemma exec_app (evs evs' : list event) (s : state) :
  exec (evs ++ evs') s = exec evs' (exec evs s).
Proof. unfold exec. apply fold_left_app. Qed.

Lemma exec_invariant (evs : list event) :
  forall s, calls_valid evs = true -> invariant s -> invariant (exec evs s).
Proof.
  induction evs as [| e evs IH]; intros s Hok Hinv; [exact Hinv |].
  unfold calls_valid in Hok. cbn [forallb] in Hok.
  apply andb_true_iff in Hok. destruct Hok as [He Hok].
  rewrite exec_cons. apply IH; [exact Hok |].
  apply exec1_invariant; assumption.
Qed.

(** *** A slot, once filled, stays as it is *)

Lemma step_slot_stable (k : nat) (s : state) (j p : nat) :
  T_ s !! j = Some (Some p) -> T_ (step k s) !! j = Some (Some p).
Proof.
  intros Hj. unfold step.
  destruct (threads s !! k) as [f |]; [| exact Hj].
  unfold GetList_step, slot.
  destruct (at_ f); try exact Hj;
    try (destruct (allocatable (segment (index f))); exact Hj);
    destruct ((0 <=? segment (index f)) && (segment (index f) <? slots));
    try exact Hj;
    destruct (T_ s !! Z.to_nat (segment (index f))) as [[q |] |] eqn:Hslot;
    try exact Hj.
  cbn [T_]. rewrite list_lookup_insert_ne; [exact Hj |].
  intros Heq. rewrite Heq, Hj in Hslot. discriminate Hslot.
Qed.

(** A refused allocation changes no slot and no array. *)
Lemma bad_alloc_heap (k : nat) (s : state) :
  T_ (bad_alloc k s) = T_ s /\ arrays (bad_alloc k s) = arrays s.
Proof.
  unfold bad_alloc. destruct (threads s !! k) as [f |]; [| split; reflexivity].
  destruct (at_ f); split; reflexivity.
Qed.

Lemma exec1_slot_stable (s : state) (e : event) (j p : nat) :
  T_ s !! j = Some (Some p) -> T_ (exec1 s e) !! j = Some (Some p).
Proof.
  intros Hj. destruct e as [n | k | k]; cbn [exec1].
  - exact Hj.
  - apply step_slot_stable. exact Hj.
  - destruct (bad_alloc_heap k s) as [-> _]. exact Hj.
Qed.

Lemma exec_slot_stable (evs : list event) :
  forall s j p,
    T_ s !! j = Some (Some p) -> T_ (exec evs s) !! j = Some (Some p).
Proof.
  induction evs as [| e evs IH]; intros s j p Hj; [exact Hj |].
  rewrite exec_cons. apply IH. apply exec1_slot_stable. exact Hj.
Qed.

(** *** The destructor *)

Lemma destroy_cons (t : option nat) (T : list (option nat)) (h : list array) :
  destroy (t :: T) h
  = destroy T match t with
              | Some p => delete_array Destructor p h
              | None => h
              end.
Proof. reflexivity. Qed.

(** The destructor deletes the arrays that are in a slot, each once when no
    array is in two slots, and leaves the others as they are. *)
Lemma destroy_lookup (T : list (option nat)) :
  forall (h : list array) (a : nat),
    (forall j j' p, T !! j = Some (Some p) -> T !! j' = Some (Some p) -> j = j') ->
    destroy T h !! a
    = (if decide (Some a ∈ T) then free Destructor else id) <$> h !! a.
Proof.
  induction T as [| t T IH]; intros h a Hdistinct.
  - cbn [destroy fold_left]. destruct (decide (Some a ∈ [])) as [Hin | _].
    + apply elem_of_nil in Hin. destruct Hin.
    + rewrite option_fmap_id. reflexivity.
  - rewrite destroy_cons, IH.
    2:{ intros j j' p Hj Hj'.
        assert (S j = S j') by (eapply Hdistinct; eassumption). lia. }
    destruct t as [p |].
    + unfold delete_array. destruct (decide (p = a)) as [-> | Hne].
      * rewrite list_lookup_alter_eq.
        destruct (decide (Some a ∈ T)) as [Hin | Hout].
        -- apply list_elem_of_lookup in Hin. destruct Hin as [j Hj].
           assert (0%nat = S j) by (eapply Hdistinct; [reflexivity | exact Hj]).
           discriminate.
        -- destruct (decide (Some a ∈ Some a :: T)) as [_ | Hout'].
           ++ rewrite option_fmap_id. reflexivity.
           ++ exfalso. apply Hout'. apply list_elem_of_here.
      * rewrite list_lookup_alter_ne by exact Hne.
        destruct (decide (Some a ∈ T)) as [Hin | Hout];
          destruct (decide (Some a ∈ Some p :: T)) as [Hin' | Hout'];
          try reflexivity.
        -- exfalso. apply Hout'. apply list_elem_of_further. exact Hin.
        -- exfalso. apply elem_of_cons in Hin'.
           destruct Hin' as [Heq | Hin']; [congruence | contradiction].
    + destruct (decide (Some a ∈ T)) as [Hin | Hout];
        destruct (decide (Some a ∈ None :: T)) as [Hin' | Hout'];
        try reflexivity.
      * exfalso. apply Hout'. apply list_elem_of_further. exact Hin.
      * exfalso. apply elem_of_cons in Hin'.
        destruct Hin' as [Heq | Hin']; [discriminate | contradiction].
Qed.

Lemma length_destroy (T : list (option nat)) :
  forall h, length (destroy T h) = length h.
Proof.
  induction T as [| t T IH]; intros h; [reflexivity |].
  rewrite destroy_cons, IH. destruct t; [apply length_alter | reflexivity].
Qed.

(** *** The reference a thread returns *)

Lemma seg_segment (f : frame) (i : Z) :
  valid_index (index f) = true -> 0 <= i ->
  seg f = Z.to_nat i <-> segment (index f) = i.
Proof.
  intros Hv Hi. pose proof (segment_range _ Hv) as Hr. unfold seg.
  split; [intros H; lia | intros ->; reflexivity].
Qed.

Lemma reference_done (s : state) (k : nat) (f : frame) (p : nat) :
  invariant s -> threads s !! k = Some f -> at_ f = Done (Some p) ->
  reference (arrays s) f = Some (p, offset (index f)).
Proof.
  intros (_ & Hfr & Hpub & _) Hk Hat.
  destruct (Hfr k f Hk) as [Hv Hpc]. rewrite Hat in Hpc.
  destruct Hpc as (p' & Hp' & Hslot). injection Hp' as <-.
  destruct (Hpub _ _ Hslot) as (k' & g & Hh & Hg & Hseg & _).
  destruct (Hfr k' g Hg) as [Hvg _].
  pose proof (segment_range _ Hv) as Hr.
  apply seg_segment in Hseg; [| exact Hvg | lia].
  unfold reference. rewrite Hat, Hh, Hseg. cbn [freed_by elements].
  rewrite shl_one by exact Hr.
  pose proof (offset_exact _ Hv) as Ho.
  pose proof (segment_brackets _ Hv) as Hb.
  rewrite Z.pow_add_r in Hb by lia. change (2 ^ 1) with 2 in Hb.
  destruct (Z.leb_spec 0 (offset (index f))); [| lia].
  destruct (Z.ltb_spec (offset (index f)) (2 ^ segment (index f))); [| lia].
  reflexivity.
Qed.

(** *** The race for a segment *)

Lemma all_done_lookup (s : state) (k : nat) (f : frame) :
  all_done s = true -> threads s !! k = Some f -> exists r, at_ f = Done r.
Proof.
  unfold all_done. rewrite forallb_forall. intros Hall Hk.
  assert (Hin : In f (threads s)).
  { apply list_elem_of_In. eapply list_elem_of_lookup_2. exact Hk. }
  specialize (Hall f Hin). unfold is_done in Hall.
  destruct (at_ f); try discriminate Hall. eexists. reflexivity.
Qed.

Lemma published_distinct (s : state) (j j' p : nat) :
  invariant s ->
  T_ s !! j = Some (Some p) -> T_ s !! j' = Some (Some p) -> j = j'.
Proof.
  intros (_ & _ & Hpub & _) Hj Hj'.
  destruct (Hpub j p Hj) as (k & f & Hh & Hk & <- & _).
  destruct (Hpub j' p Hj') as (k' & f' & Hh' & Hk' & <- & _).
  assert (k = k') as <- by (eapply held_by_one; eassumption).
  congruence.
Qed.

(** C1.  Threads call [Get] on a new sequence, at any moments and with their
    steps interleaved in any way; some of the calls are of indices of
    segment [i].  Once all have returned: slot [i] holds an array [w]; every
    thread that called for segment [i] has returned [w]; [w] was allocated
    by one of them, has [2^i] elements and has not been deleted; every other
    array allocated by a thread that called for segment [i] has been deleted
    once, by that very thread.  After the destructor every array has been deleted exactly once:
    those in a slot, [w] among them, by the destructor, the others by the
    thread that allocated them.  (A thread is a call of [Get]; an operation
    on shared memory is one step; arrays are told apart by their
    allocation.) *)
Theorem first_access_race (evs : list event) (i : Z) :
  let s := exec evs new_sequence in
  calls_valid evs = true ->
  all_done s = true ->
  (exists k f, threads s !! k = Some f /\ segment (index f) = i) ->
  exists w : nat,
    T_ s !! Z.to_nat i = Some (Some w)
    /\ (forall k f, threads s !! k = Some f -> segment (index f) = i ->
          at_ f = Done (Some w)
          /\ reference (arrays s) f = Some (w, offset (index f)))
    /\ (exists c f, arrays s !! w = Some c
                    /\ elements c = 2 ^ i /\ freed_by c = []
                    /\ threads s !! owner c = Some f
                    /\ segment (index f) = i)
    /\ (forall a c f, arrays s !! a = Some c ->
          threads s !! owner c = Some f -> segment (index f) = i ->
          a <> w -> freed_by c = [Thread (owner c)])
    /\ (forall a c, arrays s !! a = Some c ->
          exists f, threads s !! owner c = Some f)
    /\ (forall a c, destroy (T_ s) (arrays s) !! a = Some c ->
          freed_by c = if decide (Some a ∈ T_ s) then [Destructor]
                       else [Thread (owner c)])
    /\ (exists c, destroy (T_ s) (arrays s) !! w = Some c
                  /\ freed_by c = [Destructor])
    /\ length (destroy (T_ s) (arrays s)) = length (arrays s).
Proof.
  intros s Hcalls Hdone (k0 & f0 & Hf0 & Hseg0).
  assert (Hinv : invariant s)
    by (apply exec_invariant; [exact Hcalls | apply new_sequence_invariant]).
  pose proof Hinv as (Hlen & Hfr & Hpub & Harr).
  assert (Hreturned : forall k f, threads s !! k = Some f ->
            valid_index (index f) = true
            /\ exists p, at_ f = Done (Some p)
                         /\ T_ s !! seg f = Some (Some p)).
  { intros k f Hk. destruct (all_done_lookup s k f Hdone Hk) as [r Hr].
    destruct (Hfr k f Hk) as [Hv Hpc]. rewrite Hr in Hpc.
    destruct Hpc as (p & -> & Hp). split; [exact Hv |].
    exists p. split; [exact Hr | exact Hp]. }
  assert (Hirange : 0 <= i < slots).
  { destruct (Hreturned _ _ Hf0) as [Hv _]. rewrite <- Hseg0.
    apply segment_range. exact Hv. }
  assert (Hsegi : forall k f, threads s !! k = Some f ->
                    segment (index f) = i -> seg f = Z.to_nat i).
  { intros k f Hk Hi. destruct (Hreturned k f Hk) as [Hv _].
    apply seg_segment; [exact Hv | lia | exact Hi]. }
  destruct (Hreturned _ _ Hf0) as (_ & w & _ & Hw).
  rewrite (Hsegi _ _ Hf0 Hseg0) in Hw.
  assert (Hwinner : exists c, arrays s !! w = Some c
                              /\ elements c = 2 ^ i /\ freed_by c = []).
  { destruct (Hpub _ _ Hw) as (k & g & Hh & Hg & Hsegg & _).
    eexists. split; [exact Hh |]. cbn [elements freed_by].
    destruct (Hreturned k g Hg) as [Hv _].
    apply seg_segment in Hsegg; [| exact Hv | lia]. rewrite Hsegg.
    split; [apply shl_one; exact Hirange | reflexivity]. }
  assert (Hnot_held : forall a c, arrays s !! a = Some c ->
            (freed_by c = [] /\ exists j, T_ s !! j = Some (Some a))
            \/ freed_by c = [Thread (owner c)]).
  { intros a c Ha. destruct (Harr a c Ha) as [_ Hst].
    destruct Hst as [[Hfree [(g' & Hg' & Hheld) | Hslot]] | Hfreed].
    - destruct (all_done_lookup s _ g' Hdone Hg') as [r Hr].
      rewrite Hr in Hheld. destruct Hheld; discriminate.
    - left. split; assumption.
    - right. exact Hfreed. }
  exists w.
  split; [exact Hw |].
  split.
  { intros k f Hk Hi. destruct (Hreturned k f Hk) as (_ & p & Hat & Hp).
    rewrite (Hsegi k f Hk Hi) in Hp.
    assert (p = w) as -> by congruence.
    split; [exact Hat |]. apply (reference_done s k); assumption. }
  split.
  { destruct (Hpub _ _ Hw) as (k & g & Hh & Hg & Hsegg & _).
    destruct (Hreturned k g Hg) as [Hv _].
    apply seg_segment in Hsegg; [| exact Hv | lia].
    eexists _, g. split; [exact Hh |]. cbn [elements freed_by owner].
    rewrite Hsegg. split; [apply shl_one; exact Hirange |]. auto. }
  split.
  { intros a c f Ha Hf Hi Hne.
    destruct (Hnot_held a c Ha) as [[_ [j Hslot]] | Hfreed]; [| exact Hfreed].
    exfalso. apply Hne.
    destruct (Hpub j a Hslot) as (k' & g' & Hh' & Hg' & Hsegg' & _).
    rewrite Ha in Hh'. injection Hh' as ->. cbn [owner] in Hf.
    assert (g' = f) as -> by congruence.
    rewrite (Hsegi _ _ Hf Hi) in Hsegg'. subst j. congruence. }
  split.
  { intros a c Ha. destruct (Harr a c Ha) as [(g & Hg & _) _].
    exists g. exact Hg. }
  split; [| split; [| apply length_destroy]].
  2:{ destruct Hwinner as (c0 & Hc0 & _ & Hfree).
      exists (free Destructor c0).
      rewrite destroy_lookup
        by (intros j j' p; apply published_distinct; exact Hinv).
      rewrite Hc0. cbn [free freed_by]. rewrite Hfree.
      destruct (decide (Some w ∈ T_ s)) as [_ | Hout]; [split; reflexivity |].
      exfalso. apply Hout. eapply list_elem_of_lookup_2. exact Hw. }
  intros a c Ha.
  rewrite destroy_lookup in Ha
    by (intros j j' p; apply published_distinct; exact Hinv).
  destruct (arrays s !! a) as [c0 |] eqn:Hc0; [| discriminate Ha].
  cbn [fmap option_fmap option_map] in Ha. injection Ha as <-.
  destruct (decide (Some a ∈ T_ s)) as [Hin | Hout].
  - apply list_elem_of_lookup in Hin. destruct Hin as [j Hj].
    destruct (Hpub j a Hj) as (k' & g' & Hh' & _).
    rewrite Hc0 in Hh'. injection Hh' as ->. reflexivity.
  - destruct (Hnot_held a c0 Hc0) as [[_ [j Hslot]] | Hfreed].
    + exfalso. apply Hout. eapply list_elem_of_lookup_2. exact Hslot.
    + exact Hfreed.
Qed.

Lemma first_access_race_example :
  exists w : nat,
    forall k f,
      threads (exec [Call 3; Call 4; Step 0; Step 1; Step 0; Step 1; Step 1;
                     Call 5; Step 0; Step 0; Step 0; Step 0; Step 2; Step 2]%nat
                 new_sequence) !! k = Some f ->
      segment (index f) = 2 ->
      at_ f = Done (Some w).
Proof.
  destruct (first_access_race
              [Call 3; Call 4; Step 0; Step 1; Step 0; Step 1; Step 1;
               Call 5; Step 0; Step 0; Step 0; Step 0; Step 2; Step 2]%nat 2)
    as (w & _ & Hall & _).
  - reflexivity.
  - vm_compute. reflexivity.
  - exists 0%nat, {| index := 3; at_ := Done (Some 1%nat) |}.
    split; vm_compute; reflexivity.
  - exists w. intros k f Hk Hi. apply (Hall k f Hk Hi).
Defined.

Lemma done_reference (s : state) (k : nat) (f : frame) :
  invariant s -> threads s !! k = Some f -> is_done f = true ->
  exists p, at_ f = Done (Some p)
            /\ T_ s !! seg f = Some (Some p)
            /\ reference (arrays s) f = Some (p, offset (index f)).
Proof.
  intros Hinv Hk Hdone. pose proof Hinv as (_ & Hfr & _).
  destruct (Hfr k f Hk) as [_ Hpc]. unfold is_done in Hdone.
  destruct (at_ f) as [| | nt | nt | | r | |] eqn:Hat; try discriminate Hdone.
  destruct Hpc as (p & -> & Hp). exists p.
  split; [reflexivity |]. split; [exact Hp |].
  apply (reference_done s k); assumption.
Qed.

End SequenceFacts.

(** ** The lock-free sequence: how a call ends *)

Section SequenceProgress.

Import LockFreeSequence Progress.

Lemma step_at (k : nat) (s : state) (f : frame) :
  threads s !! k = Some f ->
  step k s
  = let '(at', T', h') :=
      GetList_step k (segment (index f)) (at_ f) (T_ s) (arrays s) in
    {| T_ := T'; arrays := h';
       threads := <[k := {| index := index f; at_ := at' |}]> (threads s) |}.
Proof. intros Hk. unfold step. rewrite Hk. reflexivity. Qed.

(** A step of thread [k] in a state that shows its frame. *)
Lemma step_shown (T : list (option nat)) (h : list array) (ts : list frame)
  (k : nat) (g : frame) :
  (k < length ts)%nat ->
  step k {| T_ := T; arrays := h; threads := <[k := g]> ts |}
  = let '(at', T', h') := GetList_step k (segment (index g)) (at_ g) T h in
    {| T_ := T'; arrays := h';
       threads := <[k := {| index := index g; at_ := at' |}]> ts |}.
Proof.
  intros Hk. unfold step. cbn [threads T_ arrays].
  rewrite list_lookup_insert_eq by exact Hk.
  destruct (GetList_step k (segment (index g)) (at_ g) T h) as [[at' T'] h'].
  rewrite list_insert_insert_eq. reflexivity.
Qed.

Lemma state_shown (s : state) (k : nat) (g : frame) :
  threads s !! k = Some g ->
  s = {| T_ := T_ s; arrays := arrays s; threads := <[k := g]> (threads s) |}.
Proof.
  intros Hk. rewrite list_insert_id by exact Hk. destruct s. reflexivity.
Qed.

(** *** Threads stay, and keep their index *)

Lemma threads_step_other (j k : nat) (s : state) :
  j <> k -> threads (step j s) !! k = threads s !! k.
Proof.
  intros Hne. unfold step. destruct (threads s !! j) as [f |]; [| reflexivity].
  destruct (GetList_step j (segment (index f)) (at_ f) (T_ s) (arrays s))
    as [[at' T'] h'].
  cbn [threads]. apply list_lookup_insert_ne. exact Hne.
Qed.

Lemma threads_bad_alloc_other (j k : nat) (s : state) :
  j <> k -> threads (bad_alloc j s) !! k = threads s !! k.
Proof.
  intros Hne. unfold bad_alloc.
  destruct (threads s !! j) as [f |]; [| reflexivity].
  destruct (at_ f); try reflexivity.
  cbn [threads]. apply list_lookup_insert_ne. exact Hne.
Qed.

Lemma step_index (j : nat) (s : state) (k : nat) (f : frame) :
  threads s !! k = Some f ->
  exists f', threads (step j s) !! k = Some f' /\ index f' = index f.
Proof.
  intros Hk. unfold step. destruct (threads s !! j) as [g |] eqn:Hj; [| eauto].
  destruct (GetList_step j (segment (index g)) (at_ g) (T_ s) (arrays s))
    as [[at' T'] h'].
  cbn [threads].
  rewrite (lookup_moved _ j k g {| index := index g; at_ := at' |} f Hj Hk).
  destruct (decide (k = j)) as [-> | _]; [| eauto].
  eexists. split; [reflexivity |]. cbn [index]. congruence.
Qed.

Lemma bad_alloc_index (j : nat) (s : state) (k : nat) (f : frame) :
  threads s !! k = Some f ->
  exists f', threads (bad_alloc j s) !! k = Some f' /\ index f' = index f.
Proof.
  intros Hk. unfold bad_alloc.
  destruct (threads s !! j) as [g |] eqn:Hj; [| eauto].
  destruct (at_ g); eauto.
  cbn [threads].
  rewrite (lookup_moved _ j k g {| index := index g; at_ := Thrown |} f Hj Hk).
  destruct (decide (k = j)) as [-> | _]; [| eauto].
  eexists. split; [reflexivity |]. cbn [index]. congruence.
Qed.

Lemma exec1_index (s : state) (e : event) (k : nat) (f : frame) :
  threads s !! k = Some f ->
  exists f', threads (exec1 s e) !! k = Some f' /\ index f' = index f.
Proof.
  intros Hk. destruct e as [n | j | j]; cbn [exec1].
  - exists f. split; [| reflexivity].
    unfold call. cbn [threads]. apply lookup_app_l_Some. exact Hk.
  - apply step_index. exact Hk.
  - apply bad_alloc_index. exact Hk.
Qed.

Lemma exec_index (evs : list event) :
  forall s k f,
    threads s !! k = Some f ->
    exists f', threads (exec evs s) !! k = Some f' /\ index f' = index f.
Proof.
  induction evs as [| e evs IH]; intros s k f Hk; [eauto |].
  rewrite exec_cons.
  destruct (exec1_index s e k f Hk) as (f1 & Hk1 & Hi1).
  destruct (IH _ _ _ Hk1) as (f' & Hk' & Hi').
  exists f'. split; [exact Hk' | congruence].
Qed.

Lemma call_frame (n : Z) (s : state) :
  threads (call n s) !! length (threads s)
  = Some {| index := n; at_ := AtGet |}.
Proof. unfold call. cbn [threads]. apply list_lookup_middle. reflexivity. Qed.

(** *** The steps a call has left *)

Lemma slot_stable (j : nat) (s : state) (i : Z) (p : nat) :
  slot (T_ s) i = Some (Some p) -> slot (T_ (step j s)) i = Some (Some p).
Proof.
  unfold slot. destruct ((0 <=? i) && (i <? slots)); [| discriminate].
  apply step_slot_stable.
Qed.

Lemma steps_left_bound (s : state) (k : nat) : (steps_left s k <= 6)%nat.
Proof.
  unfold steps_left. destruct (threads s !! k) as [f |]; [| lia].
  destruct (at_ f); try lia.
  destruct (slot (T_ s) (segment (index f))) as [[p |] |]; lia.
Qed.

(** A step of the thread itself brings it nearer. *)
Lemma steps_left_own (k : nat) (s : state) :
  invariant s -> (steps_left (step k s) k <= steps_left s k - 1)%nat.
Proof.
  intros (_ & Hfr & _).
  destruct (threads s !! k) as [f |] eqn:Hk.
  2:{ unfold step. rewrite Hk. unfold steps_left. rewrite Hk. lia. }
  destruct (Hfr k f Hk) as [Hv Hpc].
  assert (Hlt : (k < length (threads s))%nat)
    by (eapply lookup_lt_Some; exact Hk).
  rewrite (step_at _ _ _ Hk).
  unfold steps_left at 2. rewrite Hk.
  destruct (at_ f) as [| | nt | nt | | r | |] eqn:Hat; cbn [GetList_step].
  - destruct (slot (T_ s) (segment (index f))) as [[p |] |];
      unfold steps_left; cbn [threads T_];
      rewrite list_lookup_insert_eq by exact Hlt; cbn [at_]; lia.
  - destruct (allocatable (segment (index f)));
      unfold steps_left; cbn [threads T_];
      rewrite list_lookup_insert_eq by exact Hlt; cbn [at_]; lia.
  - destruct (slot (T_ s) (segment (index f))) as [[p |] |];
      unfold steps_left; cbn [threads T_];
      rewrite list_lookup_insert_eq by exact Hlt; cbn [at_]; lia.
  - destruct Hpc as [_ [p Hp]].
    unfold steps_left; cbn [threads T_].
    rewrite list_lookup_insert_eq by exact Hlt. cbn [at_ index].
    rewrite slot_seg by exact Hv. unfold seg in Hp. rewrite Hp. lia.
  - destruct (slot (T_ s) (segment (index f))) as [p |];
      unfold steps_left; cbn [threads T_];
      rewrite list_lookup_insert_eq by exact Hlt; cbn [at_]; lia.
  - unfold steps_left; cbn [threads T_].
    rewrite list_lookup_insert_eq by exact Hlt. cbn [at_]. lia.
  - unfold steps_left; cbn [threads T_].
    rewrite list_lookup_insert_eq by exact Hlt. cbn [at_]. lia.
  - unfold steps_left; cbn [threads T_].
    rewrite list_lookup_insert_eq by exact Hlt. cbn [at_]. lia.
Qed.

(** What other threads do does not take it farther. *)
Lemma steps_left_other (j k : nat) (s : state) :
  j <> k -> (steps_left (step j s) k <= steps_left s k)%nat.
Proof.
  intros Hne. unfold steps_left. rewrite threads_step_other by exact Hne.
  destruct (threads s !! k) as [f |]; [| lia].
  destruct (at_ f); try lia.
  destruct (slot (T_ s) (segment (index f))) as [[p |] |] eqn:Hslot.
  - rewrite (slot_stable j s _ p Hslot). lia.
  - destruct (slot (T_ (step j s)) (segment (index f))) as [[q |] |]; lia.
  - destruct (slot (T_ (step j s)) (segment (index f))) as [[q |] |]; lia.
Qed.

(** Nor does an allocation that fails, its own or another thread's. *)
Lemma steps_left_bad_alloc (j k : nat) (s : state) :
  (steps_left (bad_alloc j s) k <= steps_left s k)%nat.
Proof.
  unfold bad_alloc. destruct (threads s !! j) as [g |] eqn:Hj; [| lia].
  destruct (at_ g) eqn:Hat; try lia.
  unfold steps_left. cbn [threads T_].
  destruct (decide (k = j)) as [-> | Hne].
  - rewrite list_lookup_insert_eq by (eapply lookup_lt_Some; exact Hj).
    rewrite Hj, Hat. cbn [at_]. lia.
  - rewrite list_lookup_insert_ne by congruence. apply le_n.
Qed.

Lemma steps_left_call (n : Z) (k : nat) (s : state) :
  (k < length (threads s))%nat -> steps_left (call n s) k = steps_left s k.
Proof.
  intros Hk. unfold steps_left, call. cbn [threads T_].
  rewrite lookup_app_l by exact Hk. reflexivity.
Qed.

Lemma length_threads_exec1 (s : state) (e : event) :
  (length (threads s) <= length (threads (exec1 s e)))%nat.
Proof.
  destruct e as [n | j | j]; cbn [exec1].
  - unfold call. cbn [threads]. rewrite length_app. simpl. lia.
  - unfold step. destruct (threads s !! j) as [f |]; [| lia].
    destruct (GetList_step j (segment (index f)) (at_ f) (T_ s) (arrays s))
      as [[at' T'] h'].
    cbn [threads]. rewrite length_insert. lia.
  - unfold bad_alloc. destruct (threads s !! j) as [f |]; [| lia].
    destruct (at_ f); try lia.
    cbn [threads]. rewrite length_insert. lia.
Qed.

Lemma steps_left_exec (evs : list event) :
  forall s k,
    invariant s -> calls_valid evs = true ->
    (k < length (threads s))%nat ->
    (steps_left (exec evs s) k <= steps_left s k - own_steps k evs)%nat.
Proof.
  induction evs as [| e evs IH]; intros s k Hinv Hcalls Hk.
  - cbn [exec fold_left own_steps]. lia.
  - unfold calls_valid in Hcalls. cbn [forallb] in Hcalls.
    apply andb_true_iff in Hcalls. destruct Hcalls as [He Hcalls].
    rewrite exec_cons.
    pose proof (exec1_invariant s e He Hinv) as Hinv'.
    pose proof (length_threads_exec1 s e) as Hlen.
    specialize (IH (exec1 s e) k Hinv' Hcalls ltac:(lia)).
    destruct e as [n | j | j]; cbn [exec1 own_steps] in *.
    + rewrite steps_left_call in IH by exact Hk. exact IH.
    + destruct (Nat.eqb_spec j k) as [-> | Hne].
      * pose proof (steps_left_own k s Hinv). lia.
      * pose proof (steps_left_other j k s Hne). lia.
    + pose proof (steps_left_bad_alloc j k s). lia.
Qed.

(** With no step left the call has ended. *)
Lemma no_steps_left (s : state) (k : nat) (f : frame) :
  invariant s -> threads s !! k = Some f -> steps_left s k = 0%nat ->
  has_ended f = true.
Proof.
  intros (_ & Hfr & _) Hk Hzero. destruct (Hfr k f Hk) as [_ Hpc].
  unfold steps_left in Hzero. rewrite Hk in Hzero. unfold has_ended.
  destruct (at_ f); try discriminate Hzero; try reflexivity.
  - destruct (slot (T_ s) (segment (index f))) as [[p |] |];
      discriminate Hzero.
  - destruct Hpc.
Qed.

(** Six steps of its own end a call, whatever else takes place. *)
Lemma six_steps_end (evs : list event) (s : state) (k : nat) (g : frame) :
  invariant s -> calls_valid evs = true -> threads s !! k = Some g ->
  (6 <= own_steps k evs)%nat ->
  exists f, threads (exec evs s) !! k = Some f /\ index f = index g
            /\ has_ended f = true.
Proof.
  intros Hinv Hcalls Hk Hsteps.
  assert (Hlt : (k < length (threads s))%nat)
    by (eapply lookup_lt_Some; exact Hk).
  pose proof (steps_left_exec evs s k Hinv Hcalls Hlt) as Hleft.
  pose proof (steps_left_bound s k) as Hbound.
  destruct (exec_index evs s k g Hk) as (f & Hf & Hi).
  exists f. split; [exact Hf |]. split; [exact Hi |].
  apply (no_steps_left (exec evs s) k); [| exact Hf | lia].
  apply exec_invariant; assumption.
Qed.

(** *** When [new] throws, and when it cannot *)

Lemma refused_cons (k : nat) (e : event) (evs : list event) :
  refused k (e :: evs) = false <->
  refused k [e] = false /\ refused k evs = false.
Proof.
  unfold refused. cbn [existsb]. rewrite orb_false_r. apply orb_false_iff.
Qed.

(** A thread whose array [new] can make, and whom the allocator does not
    refuse, does not end by an exception. *)
Lemma exec1_not_thrown (s : state) (e : event) (k : nat) (f : frame) :
  threads s !! k = Some f -> at_ f <> Thrown ->
  allocatable (segment (index f)) = true ->
  refused k [e] = false ->
  exists f', threads (exec1 s e) !! k = Some f' /\ index f' = index f
             /\ at_ f' <> Thrown.
Proof.
  intros Hk Hat Halloc Href.
  assert (Hlt : (k < length (threads s))%nat)
    by (eapply lookup_lt_Some; exact Hk).
  destruct e as [n | j | j]; cbn [exec1].
  - exists f. split; [| split; [reflexivity | exact Hat]].
    unfold call. cbn [threads]. apply lookup_app_l_Some. exact Hk.
  - destruct (decide (j = k)) as [-> | Hne].
    + rewrite (step_at _ _ _ Hk). unfold GetList_step. rewrite Halloc.
      destruct (at_ f) as [| | nt | nt | | r | |];
        try (destruct (slot (T_ s) (segment (index f))) as [[p |] |]);
        cbn [threads]; rewrite list_lookup_insert_eq by exact Hlt;
        (eexists; split; [reflexivity |]; split; [reflexivity |]);
        cbn [at_]; first [discriminate | exact Hat].
    + rewrite threads_step_other by exact Hne. eauto.
  - unfold refused in Href. cbn [existsb] in Href.
    rewrite orb_false_r in Href. apply Nat.eqb_neq in Href.
    rewrite threads_bad_alloc_other by exact Href. eauto.
Qed.

Lemma exec_not_thrown (evs : list event) :
  forall s k f,
    threads s !! k = Some f -> at_ f <> Thrown ->
    allocatable (segment (index f)) = true ->
    refused k evs = false ->
    exists f', threads (exec evs s) !! k = Some f' /\ index f' = index f
               /\ at_ f' <> Thrown.
Proof.
  induction evs as [| e evs IH]; intros s k f Hk Hat Halloc Href; [eauto |].
  apply refused_cons in Href. destruct Href as [He Hevs].
  rewrite exec_cons.
  destruct (exec1_not_thrown s e k f Hk Hat Halloc He) as (f1 & Hk1 & Hi1 & Hat1).
  rewrite <- Hi1 in Halloc.
  destruct (IH _ _ _ Hk1 Hat1 Halloc Hevs) as (f' & Hk' & Hi' & Hat').
  exists f'. split; [exact Hk' |]. split; [congruence | exact Hat'].
Qed.

Lemma ended_not_thrown (f : frame) :
  has_ended f = true -> at_ f <> Thrown -> is_done f = true.
Proof.
  unfold has_ended, is_done. destruct (at_ f); congruence.
Qed.

Lemma only_reads_stable (T T' : list (option nat)) (f : frame) :
  (forall j p, T !! j = Some (Some p) -> T' !! j = Some (Some p)) ->
  only_reads T f -> only_reads T' f.
Proof.
  intros HT. unfold only_reads. destruct (at_ f); auto.
  intros [p Hp]. exists p. apply HT. exact Hp.
Qed.

(** A thread that has no [new] before it has none later. *)
Lemma exec1_only_reads (s : state) (e : event) (k : nat) (f : frame) :
  invariant s -> threads s !! k = Some f -> only_reads (T_ s) f ->
  exists f', threads (exec1 s e) !! k = Some f' /\ index f' = index f
             /\ only_reads (T_ (exec1 s e)) f'.
Proof.
  intros (Hlen & Hfr & _) Hk Hreads.
  assert (Hlt : (k < length (threads s))%nat)
    by (eapply lookup_lt_Some; exact Hk).
  destruct (Hfr k f Hk) as [Hv Hpc]. pose proof (seg_lt f Hv) as Hseg.
  destruct e as [n | j | j]; cbn [exec1].
  - exists f. split; [| split; [reflexivity | exact Hreads]].
    unfold call. cbn [threads]. apply lookup_app_l_Some. exact Hk.
  - destruct (decide (j = k)) as [-> | Hne].
    + rewrite (step_at _ _ _ Hk). unfold GetList_step.
      rewrite slot_seg by exact Hv. fold (seg f).
      unfold only_reads in Hreads.
      destruct (at_ f) as [| | nt | nt | | r | |] eqn:Hat;
        try contradiction.
      * destruct Hreads as [p Hp]. rewrite Hp. cbn [threads T_].
        rewrite list_lookup_insert_eq by exact Hlt.
        eexists. split; [reflexivity |]. split; [reflexivity | exact I].
      * destruct (T_ s !! seg f) as [[p |] |] eqn:Hslot.
        -- cbn [threads T_]. rewrite list_lookup_insert_eq by exact Hlt.
           eexists. split; [reflexivity |]. split; [reflexivity | exact I].
        -- cbn [threads T_]. rewrite list_lookup_insert_eq by exact Hlt.
           eexists. split; [reflexivity |]. split; [reflexivity | exact I].
        -- apply lookup_ge_None_1 in Hslot. lia.
      * destruct Hpc as [_ [p Hp]]. cbn [threads T_].
        rewrite list_lookup_insert_eq by exact Hlt.
        eexists. split; [reflexivity |]. split; [reflexivity |].
        exists p. exact Hp.
      * destruct Hpc as [p Hp]. rewrite Hp. cbn [threads T_].
        rewrite list_lookup_insert_eq by exact Hlt.
        eexists. split; [reflexivity |]. split; [reflexivity | exact I].
      * cbn [threads T_]. rewrite list_lookup_insert_eq by exact Hlt.
        eexists. split; [reflexivity |]. split; [reflexivity | exact I].
    + rewrite threads_step_other by exact Hne.
      exists f. split; [exact Hk |]. split; [reflexivity |].
      apply (only_reads_stable (T_ s)); [| exact Hreads].
      intros i p. apply step_slot_stable.
  - destruct (bad_alloc_heap j s) as [-> _].
    destruct (decide (j = k)) as [-> | Hne].
    + unfold bad_alloc. rewrite Hk. unfold only_reads in Hreads.
      destruct (at_ f) eqn:Hat; try contradiction;
        (exists f; split; [exact Hk |]; split; [reflexivity |]);
        unfold only_reads; rewrite Hat; exact Hreads.
    + rewrite threads_bad_alloc_other by exact Hne.
      exists f. split; [exact Hk |]. split; [reflexivity | exact Hreads].
Qed.

Lemma exec_only_reads (evs : list event) :
  forall s k f,
    invariant s -> calls_valid evs = true ->
    threads s !! k = Some f -> only_reads (T_ s) f ->
    exists f', threads (exec evs s) !! k = Some f' /\ index f' = index f
               /\ only_reads (T_ (exec evs s)) f'.
Proof.
  induction evs as [| e evs IH]; intros s k f Hinv Hcalls Hk Hreads; [eauto |].
  unfold calls_valid in Hcalls. cbn [forallb] in Hcalls.
  apply andb_true_iff in Hcalls. destruct Hcalls as [He Hcalls].
  rewrite exec_cons.
  destruct (exec1_only_reads s e k f Hinv Hk Hreads) as (f1 & Hk1 & Hi1 & Hr1).
  destruct (IH _ _ _ (exec1_invariant s e He Hinv) Hcalls Hk1 Hr1)
    as (f' & Hk' & Hi' & Hr').
  exists f'. split; [exact Hk' |]. split; [congruence | exact Hr'].
Qed.

Lemma only_reads_not_thrown (T : list (option nat)) (f : frame) :
  only_reads T f -> at_ f <> Thrown.
Proof. unfold only_reads. intros H Hat. rewrite Hat in H. exact H. Qed.

(** *** Arrays too large to make *)

Lemma new_sequence_fit : arrays_fit new_sequence.
Proof. intros a c Ha. cbn in Ha. rewrite lookup_nil in Ha. discriminate Ha. Qed.

Lemma delete_array_elements (by_ : party) (nt : nat) (h : list array)
  (a : nat) (c : array) :
  delete_array by_ nt h !! a = Some c ->
  exists c0, h !! a = Some c0 /\ elements c0 = elements c.
Proof.
  unfold delete_array. intros Ha. destruct (decide (a = nt)) as [-> | Hne].
  - rewrite list_lookup_alter_eq in Ha.
    destruct (h !! nt) as [c0 |]; [| discriminate Ha].
    injection Ha as <-. exists c0. split; reflexivity.
  - rewrite list_lookup_alter_ne in Ha by congruence.
    exists c. split; [exact Ha | reflexivity].
Qed.

Lemma exec1_arrays_fit (s : state) (e : event) :
  arrays_fit s -> arrays_fit (exec1 s e).
Proof.
  intros Hfit. destruct e as [n | k | k]; cbn [exec1].
  - exact Hfit.
  - unfold step. destruct (threads s !! k) as [f |]; [| exact Hfit].
    unfold GetList_step.
    destruct (at_ f) as [| | nt | nt | | r | |];
      try (destruct (slot (T_ s) (segment (index f))) as [[p |] |];
           exact Hfit);
      try exact Hfit.
    + destruct (allocatable (segment (index f))) eqn:Halloc; [| exact Hfit].
      intros a c Ha. cbn [arrays] in Ha. apply lookup_app_Some in Ha.
      destruct Ha as [Ha | [_ Ha]]; [exact (Hfit a c Ha) |].
      apply list_lookup_singleton_Some in Ha. destruct Ha as [_ <-].
      cbn [elements]. unfold allocatable in Halloc.
      apply Z.leb_le. exact Halloc.
    + intros a c Ha. cbn [arrays] in Ha.
      destruct (delete_array_elements _ _ _ _ _ Ha) as (c0 & Hc0 & <-).
      exact (Hfit a c0 Hc0).
  - intros a c Ha. destruct (bad_alloc_heap k s) as [_ Hh].
    rewrite Hh in Ha. exact (Hfit a c Ha).
Qed.

Lemma exec_arrays_fit (evs : list event) :
  forall s, arrays_fit s -> arrays_fit (exec evs s).
Proof.
  induction evs as [| e evs IH]; intros s Hfit; [exact Hfit |].
  rewrite exec_cons. apply IH. apply exec1_arrays_fit. exact Hfit.
Qed.

(** The slot of a segment [new] cannot make stays null, and a thread after
    it is before its [new] or has seen it throw. *)
Lemma too_large_unpublished (s : state) (k : nat) (f : frame) :
  invariant s -> arrays_fit s -> threads s !! k = Some f ->
  allocatable (segment (index f)) = false ->
  T_ s !! seg f = Some None
  /\ (at_ f = AtGet \/ at_ f = AtNew \/ at_ f = Thrown).
Proof.
  intros (Hlen & Hfr & Hpub & _) Hfit Hk Halloc.
  destruct (Hfr k f Hk) as [Hv Hpc]. pose proof (seg_lt f Hv) as Hseg.
  pose proof (segment_range _ Hv) as Hr.
  unfold allocatable in Halloc. apply Z.leb_gt in Halloc.
  assert (Hnull : forall p, T_ s !! seg f <> Some (Some p)).
  { intros p Hp. destruct (Hpub _ _ Hp) as (k' & g & Hh & Hg & Hsegg & _).
    destruct (Hfr k' g Hg) as [Hvg _].
    apply seg_segment in Hsegg; [| exact Hvg | lia].
    specialize (Hfit _ _ Hh). cbn [elements] in Hfit.
    rewrite Hsegg in Hfit. lia. }
  split.
  - destruct (T_ s !! seg f) as [[p |] |] eqn:Hslot.
    + destruct (Hnull p eq_refl).
    + reflexivity.
    + apply lookup_ge_None_1 in Hslot. lia.
  - destruct (at_ f) as [| | nt | nt | | r | |]; auto.
    + destruct Hpc as [Hh _]. specialize (Hfit _ _ Hh).
      cbn [elements] in Hfit. lia.
    + destruct Hpc as [[Hh _] _]. specialize (Hfit _ _ Hh).
      cbn [elements] in Hfit. lia.
    + destruct Hpc as [p Hp]. destruct (Hnull p Hp).
    + destruct Hpc as (p & _ & Hp). destruct (Hnull p Hp).
    + destruct Hpc.
Qed.

(** *** A call that nothing interrupts *)

Lemma exec_steps_ended (T : list (option nat)) (h : list array)
  (ts : list frame) (k : nat) (g : frame) (m : nat) :
  (k < length ts)%nat -> has_ended g = true ->
  exec (replicate m (Step k))
    {| T_ := T; arrays := h; threads := <[k := g]> ts |}
  = {| T_ := T; arrays := h; threads := <[k := g]> ts |}.
Proof.
  intros Hk Hended. induction m as [| m IH]; [reflexivity |].
  rewrite replicate_S, exec_cons. cbn [exec1].
  rewrite step_shown by exact Hk.
  destruct g as [n pc0]. unfold has_ended in Hended. cbn [at_ index] in *.
  destruct pc0; try discriminate Hended; cbn [GetList_step]; exact IH.
Qed.

Ltac solo_step Hk Hn :=
  rewrite replicate_S, exec_cons; cbn [exec1];
  rewrite step_shown by exact Hk;
  cbn [at_ index GetList_step];
  rewrite ?slot_seg by exact Hn.

(** Left alone, a thread inside [Get] that [new] does not fail returns
    within five steps. *)
Lemma solo_returns (T : list (option nat)) (h : list array) (ts : list frame)
  (k : nat) (g : frame) :
  (k < length ts)%nat -> length T = Z.to_nat slots -> frame_ok T h k g ->
  at_ g <> Thrown -> allocatable (segment (index g)) = true ->
  exists r T' h',
    exec (replicate 5 (Step k))
      {| T_ := T; arrays := h; threads := <[k := g]> ts |}
    = {| T_ := T'; arrays := h';
         threads := <[k := {| index := index g; at_ := Done r |}]> ts |}.
Proof.
  intros Hk Hlen [Hn Hpc] Hat Halloc. destruct g as [n pc0].
  cbn [index at_] in *.
  pose proof (segment_range n Hn) as Hr.
  assert (Hsome : T !! Z.to_nat (segment n) <> None).
  { intros H. apply lookup_ge_None_1 in H. lia. }
  destruct pc0 as [| | nt | nt | | r | |].
  - solo_step Hk Hn.
    destruct (T !! Z.to_nat (segment n)) as [[p |] |] eqn:Hslot;
      [| | contradiction].
    + solo_step Hk Hn. rewrite Hslot.
      rewrite exec_steps_ended by (exact Hk || reflexivity). eauto.
    + solo_step Hk Hn. rewrite Halloc. solo_step Hk Hn. rewrite Hslot.
      rewrite exec_steps_ended by (exact Hk || reflexivity). eauto.
  - solo_step Hk Hn. rewrite Halloc. solo_step Hk Hn.
    destruct (T !! Z.to_nat (segment n)) as [[p |] |] eqn:Hslot;
      [| | contradiction].
    + solo_step Hk Hn. solo_step Hk Hn. rewrite Hslot.
      solo_step Hk Hn. rewrite Hslot.
      rewrite exec_steps_ended by (exact Hk || reflexivity). eauto.
    + rewrite exec_steps_ended by (exact Hk || reflexivity). eauto.
  - solo_step Hk Hn.
    destruct (T !! Z.to_nat (segment n)) as [[p |] |] eqn:Hslot;
      [| | contradiction].
    + solo_step Hk Hn. solo_step Hk Hn. rewrite Hslot.
      solo_step Hk Hn. rewrite Hslot.
      rewrite exec_steps_ended by (exact Hk || reflexivity). eauto.
    + rewrite exec_steps_ended by (exact Hk || reflexivity). eauto.
  - destruct Hpc as [_ [p Hp]]. unfold seg in Hp. cbn [index] in Hp.
    solo_step Hk Hn. solo_step Hk Hn. rewrite Hp.
    solo_step Hk Hn. rewrite Hp.
    rewrite exec_steps_ended by (exact Hk || reflexivity). eauto.
  - destruct Hpc as [p Hp]. unfold seg in Hp. cbn [index] in Hp.
    solo_step Hk Hn. rewrite Hp.
    rewrite exec_steps_ended by (exact Hk || reflexivity). eauto.
  - rewrite exec_steps_ended by (exact Hk || reflexivity). eauto.
  - contradiction.
  - destruct Hpc.
Qed.

(** Left alone, a thread after a segment [new] cannot make ends by the
    exception. *)
Lemma solo_throws (T : list (option nat)) (h : list array) (ts : list frame)
  (k : nat) (g : frame) :
  (k < length ts)%nat -> valid_index (index g) = true ->
  T !! seg g = Some None ->
  at_ g = AtGet \/ at_ g = AtNew \/ at_ g = Thrown ->
  allocatable (segment (index g)) = false ->
  exec (replicate 5 (Step k))
    {| T_ := T; arrays := h; threads := <[k := g]> ts |}
  = {| T_ := T; arrays := h;
       threads := <[k := {| index := index g; at_ := Thrown |}]> ts |}.
Proof.
  intros Hk Hn Hslot Hat Halloc. destruct g as [n pc0].
  unfold seg in Hslot. cbn [index at_] in *.
  destruct Hat as [-> | [-> | ->]].
  - solo_step Hk Hn. rewrite Hslot. solo_step Hk Hn. rewrite Halloc.
    apply exec_steps_ended; [exact Hk | reflexivity].
  - solo_step Hk Hn. rewrite Halloc.
    apply exec_steps_ended; [exact Hk | reflexivity].
  - apply exec_steps_ended; [exact Hk | reflexivity].
Qed.

(** *** A call on a segment that is in its slot *)

Lemma Get_published (s : state) (n : Z) (p : nat) (sched : list event) :
  invariant s -> valid_index n = true -> calls_valid sched = true ->
  T_ s !! Z.to_nat (segment n) = Some (Some p) ->
  (2 <= own_steps (length (threads s)) sched)%nat ->
  fst (Get n sched s) = Some (p, offset n)
  /\ T_ (snd (Get n sched s)) !! Z.to_nat (segment n) = Some (Some p).
Proof.
  intros Hinv Hn Hcalls Hslot Hsteps.
  set (k := length (threads s)) in *.
  pose proof (call_invariant n s Hn Hinv) as Hinv1.
  pose proof (call_frame n s) as Hk1. fold k in Hk1.
  assert (Hlt : (k < length (threads (call n s)))%nat)
    by (eapply lookup_lt_Some; exact Hk1).
  assert (Hleft : steps_left (call n s) k = 2%nat).
  { unfold steps_left. rewrite Hk1. cbn [at_ index].
    rewrite slot_seg by exact Hn. cbn [call T_]. rewrite Hslot. reflexivity. }
  assert (Hreads : only_reads (T_ (call n s)) {| index := n; at_ := AtGet |}).
  { exists p. exact Hslot. }
  pose proof (exec_invariant sched _ Hcalls Hinv1) as Hinv2.
  pose proof (steps_left_exec sched _ k Hinv1 Hcalls Hlt) as Hzero.
  destruct (exec_only_reads sched _ k _ Hinv1 Hcalls Hk1 Hreads)
    as (f & Hf & Hi & Hr).
  cbn [index] in Hi.
  pose proof (no_steps_left _ k f Hinv2 Hf ltac:(lia)) as Hended.
  pose proof (ended_not_thrown f Hended (only_reads_not_thrown _ f Hr)) as Hdone.
  destruct (done_reference _ k f Hinv2 Hf Hdone) as (q & Hat & Hq & Href).
  assert (Hstable : T_ (exec sched (call n s)) !! Z.to_nat (segment n)
                    = Some (Some p))
    by (apply exec_slot_stable; exact Hslot).
  unfold seg in Hq. rewrite Hi, Hstable in Hq. injection Hq as <-.
  unfold Get. fold k. rewrite exec_cons. cbn [fst snd exec1].
  rewrite Hf. rewrite Hi in Href.
  split; [exact Href | exact Hstable].
Qed.

(** *** Repeated calls *)

(** C2.  [Get(n)] is called at some moment of a sequence's life, for [n]
    with [n + 1] a [size_t]; the steps of the caller are interleaved in any
    way with the calls, the steps and the failed allocations of other
    threads, so the caller may win the race for the segment, lose it, or find
    the segment in its slot.

    The call returns, within six steps of the caller, when [new] can make
    the array of the segment and the allocator does not refuse the caller.

    Once the call has returned, by whatever path: it has returned a
    reference, an array and an index into it; the slot of the segment holds
    that array and goes on holding it, whatever calls and steps follow; every
    thread that has called [Get(n)] and has returned has that same
    reference, a reference into an array that has not been deleted; and
    every later call of [Get(n)] returns it again, within two steps of its
    own.  And every slot that is filled, of whatever segment, stays as it
    is. *)
Theorem Get_stable (before sched after : list event) (n : Z) :
  let s1 := exec before new_sequence in
  let k := length (threads s1) in
  let s2 := snd (Get n sched s1) in
  let s3 := exec after s2 in
  valid_index n = true ->
  calls_valid before = true ->
  calls_valid sched = true ->
  calls_valid after = true ->
  (allocatable (segment n) = true -> refused k sched = false ->
   (6 <= own_steps k sched)%nat ->
   exists f, threads s2 !! k = Some f /\ is_done f = true)
  /\ ((exists f, threads s2 !! k = Some f /\ is_done f = true) ->
      exists p : nat,
        fst (Get n sched s1) = Some (p, offset n)
        /\ T_ s2 !! Z.to_nat (segment n) = Some (Some p)
        /\ T_ s3 !! Z.to_nat (segment n) = Some (Some p)
        /\ (forall j g, threads s3 !! j = Some g -> index g = n ->
              is_done g = true ->
              reference (arrays s3) g = Some (p, offset n))
        /\ (forall again, calls_valid again = true ->
              (2 <= own_steps (length (threads s3)) again)%nat ->
              fst (Get n again s3) = Some (p, offset n)
              /\ T_ (snd (Get n again s3)) !! Z.to_nat (segment n)
                 = Some (Some p)))
  /\ (forall j q, T_ s2 !! j = Some (Some q) -> T_ s3 !! j = Some (Some q)).
Proof.
  intros s1 k s2 s3 Hn Hbefore Hsched Hafter.
  assert (Hinv1 : invariant s1)
    by (apply exec_invariant; [exact Hbefore | apply new_sequence_invariant]).
  pose proof (call_invariant n s1 Hn Hinv1) as Hinvc.
  pose proof (call_frame n s1) as Hkc. fold k in Hkc.
  assert (Hs2 : s2 = exec sched (call n s1)) by reflexivity.
  assert (Hinv2 : invariant s2)
    by (rewrite Hs2; apply exec_invariant; assumption).
  assert (Hinv3 : invariant s3) by (apply exec_invariant; assumption).
  split; [| split; [| intros j q; apply exec_slot_stable]].
  - intros Halloc Href Hsteps. rewrite Hs2.
    destruct (six_steps_end sched _ k _ Hinvc Hsched Hkc Hsteps)
      as (f & Hf & _ & Hended).
    assert (Hstart : at_ {| index := n; at_ := AtGet |} <> Thrown)
      by discriminate.
    destruct (exec_not_thrown sched _ k _ Hkc Hstart Halloc Href)
      as (f' & Hf' & _ & Hat).
    exists f. split; [exact Hf |].
    apply ended_not_thrown; [exact Hended |]. congruence.
  - intros (f & Hf & Hdone).
    destruct (exec_index sched _ k _ Hkc) as (f' & Hf' & Hi).
    rewrite <- Hs2 in Hf'. assert (f' = f) as -> by congruence.
    cbn [index] in Hi.
    destruct (done_reference s2 k f Hinv2 Hf Hdone) as (p & _ & Hp & Href).
    unfold seg in Hp. rewrite Hi in Hp, Href.
    assert (Hp3 : T_ s3 !! Z.to_nat (segment n) = Some (Some p))
      by (apply exec_slot_stable; exact Hp).
    exists p.
    split.
    { change (threads s2 !! k ≫= reference (arrays s2) = Some (p, offset n)).
      rewrite Hf. exact Href. }
    split; [exact Hp |]. split; [exact Hp3 |]. split.
    + intros j g Hg Hgi Hgdone.
      destruct (done_reference s3 j g Hinv3 Hg Hgdone) as (q & _ & Hq & Hgref).
      unfold seg in Hq. rewrite Hgi in Hq, Hgref.
      assert (q = p) as -> by congruence. exact Hgref.
    + intros again Hagain Htwo.
      apply Get_published; assumption.
Qed.

Lemma Get_stable_example :
  exists p : nat,
    fst (Get 3 [Step 1; Step 1; Step 0; Step 1; Step 1; Step 1; Step 1]%nat
           (exec [Call 4; Step 0; Step 0]%nat new_sequence))
    = Some (p, offset 3)
    /\ fst (Get 3 [Step 3; Call 7; Step 3]%nat
              (exec [Call 100; Step 2; Step 2; Step 2]%nat
                 (snd (Get 3 [Step 1; Step 1; Step 0; Step 1; Step 1; Step 1;
                              Step 1]%nat
                         (exec [Call 4; Step 0; Step 0]%nat new_sequence)))))
       = Some (p, offset 3).
Proof.
  destruct (Get_stable [Call 4; Step 0; Step 0]%nat
              [Step 1; Step 1; Step 0; Step 1; Step 1; Step 1; Step 1]%nat
              [Call 100; Step 2; Step 2; Step 2]%nat 3)
    as (Hreturns & Hsame & _); try reflexivity.
  destruct Hsame as (p & Hfirst & _ & _ & _ & Hagain).
  - apply Hreturns; [reflexivity | reflexivity | vm_compute; lia].
  - exists p. split; [exact Hfirst |].
    apply (Hagain [Step 3; Call 7; Step 3]%nat); [reflexivity |].
    vm_compute. lia.
Defined.

(** *** A call that runs alone *)

(** In any state a sequence can reach, a thread inside [Get] whose steps no
    other thread's interrupt has ended its call after five of them, each of
    [new], [AtomicCas] and [delete[]] counted as one: it has returned when
    [new] can make the array of its segment (and has not thrown before), and
    it has ended by the exception of [new] when the array is too large, as
    it is for the last segment. *)
Theorem Get_alone_returns (evs : list event) (k : nat) (g : frame) :
  let s := exec evs new_sequence in
  calls_valid evs = true ->
  threads s !! k = Some g ->
  exists f,
    threads (exec (replicate 5 (Step k)) s) !! k = Some f
    /\ index f = index g
    /\ (at_ g <> Thrown -> allocatable (segment (index g)) = true ->
        is_done f = true)
    /\ (allocatable (segment (index g)) = false -> at_ f = Thrown).
Proof.
  intros s Hcalls Hg.
  assert (Hinv : invariant s)
    by (apply exec_invariant; [exact Hcalls | apply new_sequence_invariant]).
  assert (Hfit : arrays_fit s)
    by (apply exec_arrays_fit; apply new_sequence_fit).
  pose proof Hinv as (Hlen & Hfr & _).
  assert (Hk : (k < length (threads s))%nat)
    by (eapply lookup_lt_Some; exact Hg).
  destruct (exec_index (replicate 5 (Step k)) s k g Hg) as (f & Hf & Hi).
  exists f. split; [exact Hf |]. split; [exact Hi |]. split.
  - intros Hat Halloc.
    destruct (solo_returns (T_ s) (arrays s) (threads s) k g Hk Hlen
                (Hfr k g Hg) Hat Halloc) as (r & T' & h' & Hrun).
    rewrite <- (state_shown s k g Hg) in Hrun. rewrite Hrun in Hf.
    cbn [threads] in Hf. rewrite list_lookup_insert_eq in Hf by exact Hk.
    injection Hf as <-. reflexivity.
  - intros Halloc.
    destruct (too_large_unpublished s k g Hinv Hfit Hg Halloc) as [Hslot Hat].
    destruct (Hfr k g Hg) as [Hv _].
    pose proof (solo_throws (T_ s) (arrays s) (threads s) k g Hk Hv Hslot
                  Hat Halloc) as Hrun.
    rewrite <- (state_shown s k g Hg) in Hrun. rewrite Hrun in Hf.
    cbn [threads] in Hf. rewrite list_lookup_insert_eq in Hf by exact Hk.
    injection Hf as <-. reflexivity.
Qed.

Lemma Get_alone_returns_example :
  (exists f,
     threads (exec (replicate 5 (Step 0%nat))
                (exec [Call 3; Call 4; Step 0; Step 1; Step 0; Step 1; Step 1]%nat
                   new_sequence)) !! 0%nat = Some f
     /\ is_done f = true)
  /\ (exists f,
        threads (exec (replicate 5 (Step 1%nat))
                   (exec [Call 3; Call 18446744073709551614; Step 1]%nat
                      new_sequence)) !! 1%nat = Some f
        /\ at_ f = Thrown).
Proof.
  split.
  - destruct (Get_alone_returns
                [Call 3; Call 4; Step 0; Step 1; Step 0; Step 1; Step 1]%nat 0
                {| index := 3; at_ := AtCas 0 |})
      as (f & Hf & _ & Hdone & _); try reflexivity.
    exists f. split; [exact Hf |].
    apply Hdone; [discriminate | reflexivity].
  - destruct (Get_alone_returns
                [Call 3; Call 18446744073709551614; Step 1]%nat 1
                {| index := 18446744073709551614; at_ := AtNew |})
      as (f & Hf & _ & _ & Hthrown); try reflexivity.
    exists f. split; [exact Hf |]. apply Hthrown. reflexivity.
Defined.

(** When the segment of [n] is in its slot already, [Get(n)] returns the
    array of the slot after two steps, the read of the slot in the loop's
    test and the read in [return], and allocates and changes nothing; and
    with the steps of other threads between its own, whatever they are, it
    returns the same. *)
Theorem Get_published_only_reads (evs : list event) (n : Z) (p : nat) :
  let s := exec evs new_sequence in
  let k := length (threads s) in
  calls_valid evs = true ->
  valid_index n = true ->
  T_ s !! Z.to_nat (segment n) = Some (Some p) ->
  exec [Call n; Step k; Step k] s
  = {| T_ := T_ s; arrays := arrays s;
       threads := <[k := {| index := n; at_ := Done (Some p) |}]>
                    (threads s ++ [ {| index := n; at_ := AtGet |} ]) |}
  /\ fst (Get n [Step k; Step k; Step k] s) = Some (p, offset n)
  /\ T_ (snd (Get n [Step k; Step k; Step k] s)) = T_ s
  /\ arrays (snd (Get n [Step k; Step k; Step k] s)) = arrays s
  /\ (forall sched, calls_valid sched = true ->
        (2 <= own_steps k sched)%nat ->
        fst (Get n sched s) = Some (p, offset n)).
Proof.
  intros s k Hcalls Hn Hslot.
  assert (Hinv : invariant s)
    by (apply exec_invariant; [exact Hcalls | apply new_sequence_invariant]).
  assert (Hk : (k < length (threads s ++ [ {| index := n; at_ := AtGet |} ]))%nat)
    by (rewrite length_app; simpl; lia).
  assert (Htwo : exec [Call n; Step k; Step k] s
            = {| T_ := T_ s; arrays := arrays s;
                 threads := <[k := {| index := n; at_ := Done (Some p) |}]>
                              (threads s ++ [ {| index := n; at_ := AtGet |} ]) |}).
  { rewrite !exec_cons. cbn [exec1]. change (exec [] ?x) with x.
    unfold call.
    rewrite (state_shown {| T_ := T_ s; arrays := arrays s;
                            threads := threads s ++ [ {| index := n; at_ := AtGet |} ] |}
               k {| index := n; at_ := AtGet |})
      by (apply list_lookup_middle; reflexivity).
    cbn [T_ arrays threads].
    rewrite step_shown by exact Hk. cbn [at_ index GetList_step].
    rewrite slot_seg, Hslot by exact Hn.
    rewrite step_shown by exact Hk. cbn [at_ index GetList_step].
    rewrite slot_seg, Hslot by exact Hn. reflexivity. }
  split; [exact Htwo |].
  assert (Hthree : snd (Get n [Step k; Step k; Step k] s)
            = {| T_ := T_ s; arrays := arrays s;
                 threads := <[k := {| index := n; at_ := Done (Some p) |}]>
                              (threads s ++ [ {| index := n; at_ := AtGet |} ]) |}).
  { unfold Get. fold k. cbn [snd].
    change [Call n; Step k; Step k; Step k]
      with ([Call n; Step k; Step k] ++ [Step k]).
    rewrite exec_app, Htwo, exec_cons. cbn [exec1]. change (exec [] ?x) with x.
    rewrite step_shown by exact Hk. reflexivity. }
  assert (Hany : forall sched, calls_valid sched = true ->
            (2 <= own_steps k sched)%nat ->
            fst (Get n sched s) = Some (p, offset n)).
  { intros sched Hsched Hsteps.
    apply (Get_published s n p sched); assumption. }
  split.
  { apply Hany; [reflexivity |]. cbn [own_steps]. rewrite Nat.eqb_refl. lia. }
  rewrite Hthree. cbn [T_ arrays].
  split; [reflexivity |]. split; [reflexivity | exact Hany].
Qed.

Lemma Get_published_only_reads_example :
  fst (Get 4 [Step 1; Step 1; Step 1]%nat
         (exec [Call 3; Step 0; Step 0; Step 0]%nat new_sequence))
  = Some (0%nat, offset 4)
  /\ arrays (snd (Get 4 [Step 1; Step 1; Step 1]%nat
                    (exec [Call 3; Step 0; Step 0; Step 0]%nat new_sequence)))
     = arrays (exec [Call 3; Step 0; Step 0; Step 0]%nat new_sequence)
  /\ fst (Get 4 [Call 9; Step 1; Step 2; BadAlloc 1; Step 2; Step 1]%nat
            (exec [Call 3; Step 0; Step 0; Step 0]%nat new_sequence))
     = Some (0%nat, offset 4).
Proof.
  destruct (Get_published_only_reads
              [Call 3; Step 0; Step 0; Step 0]%nat 4 0)
    as (_ & Hget & _ & Harrays & Hany).
  - reflexivity.
  - reflexivity.
  - reflexivity.
  - split; [exact Hget |]. split; [exact Harrays |].
    apply Hany; [reflexivity | vm_compute; lia].
Defined.

(** A step of a thread that is after one segment leaves the slot of every
    other segment as it is. *)
Theorem step_other_segment (k : nat) (s : state) (f : frame) (j : nat) :
  threads s !! k = Some f ->
  Z.to_nat (segment (index f)) <> j ->
  T_ (step k s) !! j = T_ s !! j.
Proof.
  intros Hk Hj. unfold step. rewrite Hk.
  unfold GetList_step, slot.
  destruct (at_ f); try reflexivity;
    try (destruct (allocatable (segment (index f))); reflexivity);
    destruct ((0 <=? segment (index f)) && (segment (index f) <? slots));
    try reflexivity;
    destruct (T_ s !! Z.to_nat (segment (index f))) as [[q |] |];
    try reflexivity.
  cbn [T_]. apply list_lookup_insert_ne. exact Hj.
Qed.

Lemma step_other_segment_example :
  T_ (step 0 (exec [Call 3; Step 0; Step 0]%nat new_sequence)) !! 5%nat
  = T_ (exec [Call 3; Step 0; Step 0]%nat new_sequence) !! 5%nat.
Proof.
  apply (step_other_segment 0 (exec [Call 3; Step 0; Step 0]%nat new_sequence)
           {| index := 3; at_ := AtCas 0 |} 5).
  - reflexivity.
  - vm_compute. lia.
Defined.

(** *** The loop of [GetList] *)

(** The loop of [GetList] does not go round for ever, whatever the other
    threads do and whenever: a call has ended once its thread has taken six
    steps (the loop's test, [new], [AtomicCas], [delete[]], the test again
    and the [return], each counted as one), for an [AtomicCas] that fails
    leaves the slot filled and the second test ends the loop.  The call has
    ended by a [return] unless its [new] has thrown, which takes an array too
    large to make or an allocator that refuses the thread. *)
Theorem GetList_ends_in_six_steps (before after : list event) (k : nat)
  (g : frame) :
  let s := exec before new_sequence in
  calls_valid before = true -> calls_valid after = true ->
  threads s !! k = Some g ->
  (6 <= own_steps k after)%nat ->
  exists f,
    threads (exec after s) !! k = Some f
    /\ index f = index g
    /\ has_ended f = true
    /\ (at_ g <> Thrown -> allocatable (segment (index g)) = true ->
        refused k after = false -> is_done f = true).
Proof.
  intros s Hbefore Hafter Hg Hsteps.
  assert (Hinv : invariant s)
    by (apply exec_invariant; [exact Hbefore | apply new_sequence_invariant]).
  destruct (six_steps_end after s k g Hinv Hafter Hg Hsteps)
    as (f & Hf & Hi & Hended).
  exists f. split; [exact Hf |]. split; [exact Hi |].
  split; [exact Hended |].
  intros Hat Halloc Href.
  destruct (exec_not_thrown after s k g Hg Hat Halloc Href)
    as (f' & Hf' & _ & Hat').
  apply ended_not_thrown; [exact Hended | congruence].
Qed.

Lemma GetList_ends_in_six_steps_example :
  (exists f,
     threads (exec [Step 0; Step 1; Step 0; Step 1; Step 1; Step 0; Step 0;
                    Call 5; Step 0; Step 2; Step 0]%nat
                (exec [Call 3; Call 4]%nat new_sequence)) !! 0%nat = Some f
     /\ is_done f = true)
  /\ (exists f,
        threads (exec [Step 1; Step 0; BadAlloc 1; Step 1; Step 0; Step 1;
                       Step 1; Step 1; Step 1]%nat
                   (exec [Call 3; Call 4]%nat new_sequence)) !! 1%nat = Some f
        /\ has_ended f = true).
Proof.
  split.
  - destruct (GetList_ends_in_six_steps [Call 3; Call 4]%nat
                [Step 0; Step 1; Step 0; Step 1; Step 1; Step 0; Step 0;
                 Call 5; Step 0; Step 2; Step 0]%nat 0
                {| index := 3; at_ := AtGet |})
      as (f & Hf & _ & _ & Hdone); try reflexivity.
    exists f. split; [exact Hf |].
    apply Hdone; [discriminate | reflexivity | reflexivity].
  - destruct (GetList_ends_in_six_steps [Call 3; Call 4]%nat
                [Step 1; Step 0; BadAlloc 1; Step 1; Step 0; Step 1;
                 Step 1; Step 1; Step 1]%nat 1
                {| index := 4; at_ := AtGet |})
      as (f & Hf & _ & Hended & _); try reflexivity.
    exists f. split; [exact Hf | exact Hended].
Defined.

End SequenceProgress.
(** ** The request buffer *)

Section RequestDataFacts.

Import Http.

Lemma write_parts_app (caller : memory) (r : TRequestData)
  (ps qs : list TPart) :
  forall io,
    write_parts caller r (ps ++ qs) io
    = match write_parts caller r ps io with
      | Some io' => write_parts caller r qs io'
      | None => None
      end.
Proof.
  induction ps as [| p ps IH]; intros io; [reflexivity |].
  cbn [app write_parts]. destruct (load caller r (buf p) (len p)); [apply IH | reflexivity].
Qed.

Lemma load_Mem (caller : memory) (r r' : TRequestData) (p : ptr) (n : Z) :
  Mem r = Mem r' -> load caller r p n = load caller r' p n.
Proof. intros HMem. unfold load. rewrite HMem. reflexivity. Qed.

Lemma write_parts_Mem (caller : memory) (r r' : TRequestData)
  (ps : list TPart) :
  Mem r = Mem r' ->
  forall io, write_parts caller r ps io = write_parts caller r' ps io.
Proof.
  intros HMem. induction ps as [| p ps IH]; intros io; [reflexivity |].
  cbn [write_parts]. rewrite (load_Mem caller r r') by exact HMem.
  destruct (load caller r' (buf p) (len p)); [apply IH | reflexivity].
Qed.

(** [AddPart] puts the part after the parts there are, and [SendTo] sends the
    parts in the order they were added: what is sent with one part more is
    what was sent before, then the bytes of the new part. *)
Theorem SendTo_add_part (caller : memory) (r : TRequestData) (b : ptr)
  (n : Z) (io : list ascii) :
  Parts_ (add_part r b n) = Parts_ r ++ [ {| buf := b; len := n |} ]
  /\ Mem (add_part r b n) = Mem r
  /\ SendTo caller (add_part r b n) io
     = match SendTo caller r io, load caller r b n with
       | Some io', Some bytes => Some (io' ++ bytes)
       | _, _ => None
       end.
Proof.
  split; [reflexivity |]. split; [reflexivity |].
  unfold SendTo. cbn [Parts_ add_part].
  rewrite write_parts_app.
  rewrite (write_parts_Mem caller _ r) by reflexivity.
  destruct (write_parts caller r (Parts_ r) io) as [io' |]; [| reflexivity].
  cbn [write_parts buf len].
  rewrite (load_Mem caller _ r) by reflexivity.
  destruct (load caller r b n); reflexivity.
Qed.

End RequestDataFacts.

(** ** More on [TFdLimits] and on where [Get(n)] looks *)

Section MoreArithmetic.

Import FdLimits LockFreeSequence.

(** [ExceedLimit(val, limit)] is what [val] has above [limit]: never more
    than [val], never wrapped around, zero exactly when [val] is within the
    limit; the limit and the excess make up the larger of the two; and more
    [val] never gives less excess. *)
Theorem ExceedLimit_excess (val val' limit : Z) :
  SizeT.in_range val -> SizeT.in_range val' -> SizeT.in_range limit ->
  0 <= ExceedLimit val limit <= val
  /\ limit + ExceedLimit val limit = Z.max val limit
  /\ (ExceedLimit val limit = 0 <-> val <= limit)
  /\ (val <= val' -> ExceedLimit val limit <= ExceedLimit val' limit).
Proof.
  intros Hv Hv' Hl.
  assert (Hcases : forall v, SizeT.in_range v ->
            (limit < v /\ ExceedLimit v limit = v - limit)
            \/ (v <= limit /\ ExceedLimit v limit = 0)).
  { intros v Hr. destruct (Z.lt_ge_cases limit v) as [Hlt | Hge].
    - left. split; [exact Hlt | apply ExceedLimit_above; assumption].
    - right. split; [exact Hge | apply ExceedLimit_below; exact Hge]. }
  unfold SizeT.in_range in *.
  destruct (Hcases val Hv) as [[H1 ->] | [H1 ->]];
    destruct (Hcases val' Hv') as [[H2 ->] | [H2 ->]]; lia.
Qed.

Lemma ExceedLimit_excess_example :
  10000 + ExceedLimit 10250 10000 = Z.max 10250 10000.
Proof.
  apply (ExceedLimit_excess 10250 10250 10000);
    (vm_compute; split; [discriminate | reflexivity]).
Defined.

(** Every element of every segment is the slot of an index: for a segment
    [i] of the table and a position [off] among its [2^i] elements, the index
    [2^i - 1 + off] is one [Get] is defined on, and [Get] looks for it in
    segment [i] at [off].  So the segments before [i] hold the indices below
    [2^i - 1], and the sequence holds [2^64 - 1] elements in all. *)
Theorem every_slot_is_used (i off : Z) :
  0 <= i < slots -> 0 <= off < 2 ^ i ->
  valid_index (2 ^ i - 1 + off) = true
  /\ segment (2 ^ i - 1 + off) = i
  /\ offset (2 ^ i - 1 + off) = off.
Proof.
  intros Hi Hoff.
  assert (Hpow : 2 ^ (i + 1) <= SizeT.modulus).
  { unfold SizeT.modulus, SizeT.bits. apply Z.pow_le_mono_r; unfold slots in Hi; lia. }
  rewrite Z.pow_add_r in Hpow by lia. change (2 ^ 1) with 2 in Hpow.
  assert (Hvalid : valid_index (2 ^ i - 1 + off) = true)
    by (apply valid_index_range; lia).
  assert (Hseg : segment (2 ^ i - 1 + off) = i).
  { rewrite segment_log2 by exact Hvalid.
    apply Z.log2_unique; [lia |].
    unfold Z.succ. rewrite Z.pow_add_r by lia. change (2 ^ 1) with 2. lia. }
  split; [exact Hvalid |]. split; [exact Hseg |].
  rewrite offset_exact by exact Hvalid. rewrite Hseg. lia.
Qed.

Lemma every_slot_is_used_example :
  valid_index (2 ^ 63 - 1 + (2 ^ 63 - 1)) = true
  /\ segment (2 ^ 63 - 1 + (2 ^ 63 - 1)) = 63
  /\ offset (2 ^ 63 - 1 + (2 ^ 63 - 1)) = 2 ^ 63 - 1.
Proof.
  apply (every_slot_is_used 63 (2 ^ 63 - 1));
    (vm_compute; split; [discriminate | reflexivity]).
Defined.

End MoreArithmetic.

(** ** More on the lock-free sequence *)

Section MoreSequenceFacts.

Import LockFreeSequence.

(** At every moment of a sequence's life, whatever calls and steps led to
    it: a slot that is not null is one of the 64 of the table, its array has
    exactly [2^j] elements, [j] being the slot, has not been deleted, and is
    in no other slot. *)
Theorem published_segment (evs : list event) (j p : nat) :
  let s := exec evs new_sequence in
  calls_valid evs = true ->
  T_ s !! j = Some (Some p) ->
  (j < 64)%nat
  /\ (exists c, arrays s !! p = Some c
                /\ elements c = 2 ^ Z.of_nat j /\ freed_by c = [])
  /\ (forall j', T_ s !! j' = Some (Some p) -> j' = j).
Proof.
  intros s Hcalls Hj.
  assert (Hinv : invariant s)
    by (apply exec_invariant; [exact Hcalls | apply new_sequence_invariant]).
  pose proof Hinv as (Hlen & Hfr & Hpub & _).
  split; [apply lookup_lt_Some in Hj; change (Z.to_nat slots) with 64%nat in Hlen; lia |].
  split.
  - destruct (Hpub j p Hj) as (k & f & Hh & Hk & Hseg & _).
    destruct (Hfr k f Hk) as [Hv _].
    pose proof (segment_range _ Hv) as Hr.
    eexists. split; [exact Hh |]. cbn [elements freed_by].
    split; [| reflexivity].
    rewrite shl_one by exact Hr. f_equal. unfold seg in Hseg. lia.
  - intros j' Hj'. eapply published_distinct; eassumption.
Qed.

Lemma published_segment_example :
  exists c,
    arrays (exec [Call 3; Step 0; Step 0; Step 0]%nat new_sequence) !! 0%nat
    = Some c
    /\ elements c = 2 ^ Z.of_nat 2 /\ freed_by c = [].
Proof.
  apply (published_segment [Call 3; Step 0; Step 0; Step 0]%nat 2 0);
    reflexivity.
Defined.

(** Two indices never share an element.  At every moment of a sequence's
    life, whatever calls, steps and failed allocations led to it: two threads
    that have returned from [Get], called with indices that differ, hold
    references that differ, in the array or in the index into it. *)
Theorem Get_no_alias (evs : list event) (j k : nat) (f g : frame) :
  let s := exec evs new_sequence in
  calls_valid evs = true ->
  threads s !! j = Some f -> threads s !! k = Some g ->
  is_done f = true -> is_done g = true ->
  index f <> index g ->
  exists r r',
    reference (arrays s) f = Some r /\ reference (arrays s) g = Some r'
    /\ r <> r'.
Proof.
  intros s Hcalls Hf Hg Hfdone Hgdone Hne.
  assert (Hinv : invariant s)
    by (apply exec_invariant; [exact Hcalls | apply new_sequence_invariant]).
  pose proof Hinv as (_ & Hfr & _).
  destruct (Hfr j f Hf) as [Hvf _]. destruct (Hfr k g Hg) as [Hvg _].
  destruct (done_reference s j f Hinv Hf Hfdone) as (p & _ & Hp & Hfref).
  destruct (done_reference s k g Hinv Hg Hgdone) as (q & _ & Hq & Hgref).
  exists (p, offset (index f)), (q, offset (index g)).
  split; [exact Hfref |]. split; [exact Hgref |].
  intros Heq. injection Heq as Hpq Hoff. subst q.
  pose proof (published_distinct _ _ _ _ Hinv Hp Hq) as Hseg.
  pose proof (segment_range _ Hvf) as Hrf.
  pose proof (segment_range _ Hvg) as Hrg.
  assert (Hseg' : segment (index f) = segment (index g))
    by (unfold seg in Hseg; lia).
  rewrite (offset_exact _ Hvf), (offset_exact _ Hvg), Hseg' in Hoff.
  apply Hne. lia.
Qed.

Lemma Get_no_alias_example :
  exists r r',
    reference
      (arrays (exec [Call 5; Call 6; Step 0; Step 1; Step 0; Step 1; Step 1;
                     Step 0; Step 0; Step 0; Step 0]%nat new_sequence))
      {| index := 5; at_ := Done (Some 1%nat) |} = Some r
    /\ reference
         (arrays (exec [Call 5; Call 6; Step 0; Step 1; Step 0; Step 1; Step 1;
                        Step 0; Step 0; Step 0; Step 0]%nat new_sequence))
         {| index := 6; at_ := Done (Some 1%nat) |} = Some r'
    /\ r <> r'.
Proof.
  apply (Get_no_alias
           [Call 5; Call 6; Step 0; Step 1; Step 0; Step 1; Step 1;
            Step 0; Step 0; Step 0; Step 0]%nat 0 1);
    try reflexivity.
  discriminate.
Defined.

End MoreSequenceFacts.

Section Allocations.

Import LockFreeSequence Progress.

Lemma past_new_moved (T T' : list (option nat)) (ts : list frame) (k : nat)
  (f : frame) (pc' : pc) (a : nat) (c : array) :
  ts !! k = Some f ->
  (forall j p, T !! j = Some (Some p) -> T' !! j = Some (Some p)) ->
  (owner c = k ->
   match at_ f with
   | AtCas nt | AtDelete nt => nt = a
   | AtGet => exists p, T !! seg f = Some (Some p)
   | AtReturn | Done _ => True
   | AtNew | Thrown | Undefined => False
   end ->
   match pc' with
   | AtCas nt | AtDelete nt => nt = a
   | AtGet => exists p, T' !! seg f = Some (Some p)
   | AtReturn | Done _ => True
   | AtNew | Thrown | Undefined => False
   end) ->
  past_new T ts a c ->
  past_new T' (<[k := {| index := index f; at_ := pc' |}]> ts) a c.
Proof.
  intros Hk HT Hpc (g & Hg & Hat). unfold past_new.
  pose proof (lookup_moved ts k (owner c) f {| index := index f; at_ := pc' |}
                g Hk Hg) as Hlook.
  destruct (decide (owner c = k)) as [Heq | Hne].
  - eexists. split; [exact Hlook |]. cbn [at_].
    rewrite Heq in Hg. assert (g = f) as -> by congruence.
    apply Hpc; assumption.
  - exists g. split; [exact Hlook |].
    destruct (at_ g); try exact Hat.
    destruct Hat as [p Hp]. exists p. apply HT. exact Hp.
Qed.

Lemma new_sequence_allocations : allocations_ok new_sequence.
Proof.
  split.
  - intros a a' c c' Ha. cbn [new_sequence arrays] in Ha.
    rewrite lookup_nil in Ha. discriminate Ha.
  - intros a c Ha. cbn [new_sequence arrays] in Ha.
    rewrite lookup_nil in Ha. discriminate Ha.
Qed.

Lemma call_allocations (n : Z) (s : state) :
  allocations_ok s -> allocations_ok (call n s).
Proof.
  intros [Hone Hpast]. split; [exact Hone |].
  intros a c Ha. destruct (Hpast a c Ha) as (f & Hf & Hat).
  exists f. split; [| exact Hat].
  unfold call. cbn [threads]. apply lookup_app_l_Some. exact Hf.
Qed.

Lemma step_allocations (k : nat) (s : state) :
  invariant s -> allocations_ok s -> allocations_ok (step k s).
Proof.
  intros (Hlen & Hfr & _) [Hone Hpast].
  destruct (threads s !! k) as [f |] eqn:Hk.
  2:{ unfold step. rewrite Hk. split; assumption. }
  destruct (Hfr k f Hk) as [Hv Hpc].
  rewrite (step_at _ _ _ Hk). unfold GetList_step.
  rewrite slot_seg by exact Hv. fold (seg f).
  destruct (at_ f) as [| | nt | nt | | r | |] eqn:Hat.
  - destruct (T_ s !! seg f) as [[p |] |] eqn:Hslot;
      (split; [exact Hone |]); intros a c Ha; cbn [arrays T_ threads] in *;
      apply (past_new_moved (T_ s) (T_ s) _ _ f); auto;
      rewrite Hat; intros _ [q Hq]; try exact I; congruence.
  - destruct (allocatable (segment (index f))).
    2:{ split; [exact Hone |]. intros a c Ha. cbn [arrays T_ threads] in *.
        apply (past_new_moved (T_ s) (T_ s) _ _ f); auto.
        rewrite Hat. intros _ []. }
    split; cbn [arrays T_ threads].
    + intros a a' c c' Ha Ha' Hown.
      apply lookup_app_Some in Ha. apply lookup_app_Some in Ha'.
      destruct Ha as [Ha | [Hge Ha]]; destruct Ha' as [Ha' | [Hge' Ha']].
      * eapply Hone; eassumption.
      * apply list_lookup_singleton_Some in Ha'. destruct Ha' as [_ <-].
        cbn [owner] in Hown. destruct (Hpast a c Ha) as (g & Hg & Hg').
        rewrite Hown, Hk in Hg. injection Hg as <-. rewrite Hat in Hg'.
        destruct Hg'.
      * apply list_lookup_singleton_Some in Ha. destruct Ha as [_ <-].
        cbn [owner] in Hown. destruct (Hpast a' c' Ha') as (g & Hg & Hg').
        rewrite <- Hown, Hk in Hg. injection Hg as <-. rewrite Hat in Hg'.
        destruct Hg'.
      * apply list_lookup_singleton_Some in Ha. destruct Ha as [Hz _].
        apply list_lookup_singleton_Some in Ha'. destruct Ha' as [Hz' _].
        lia.
    + intros a c Ha. apply lookup_app_Some in Ha.
      destruct Ha as [Ha | [Hge Ha]].
      * apply (past_new_moved (T_ s) (T_ s) _ _ f); auto.
        rewrite Hat. intros _ [].
      * apply list_lookup_singleton_Some in Ha. destruct Ha as [Hz <-].
        assert (a = length (arrays s)) as -> by lia.
        eexists. cbn [owner]. split.
        -- apply list_lookup_insert_eq. eapply lookup_lt_Some. exact Hk.
        -- reflexivity.
  - destruct (T_ s !! seg f) as [[p |] |] eqn:Hslot;
      (split; [exact Hone |]); intros a c Ha; cbn [arrays T_ threads] in *.
    + apply (past_new_moved (T_ s) (T_ s) _ _ f); auto.
      rewrite Hat. auto.
    + apply (past_new_moved (T_ s) _ _ _ f); auto.
      intros j q Hj. rewrite list_lookup_insert_ne; [exact Hj |].
      intros <-. rewrite Hslot in Hj. discriminate Hj.
    + apply (past_new_moved (T_ s) (T_ s) _ _ f); auto.
      rewrite Hat. intros _ _.
      apply lookup_ge_None_1 in Hslot. pose proof (seg_lt f Hv). lia.
  - destruct Hpc as [_ [p Hp]]. unfold delete_array.
    assert (Hsame : forall a c, alter (free (Thread k)) nt (arrays s) !! a = Some c ->
              exists c0, arrays s !! a = Some c0 /\ owner c0 = owner c).
    { intros a c Ha. destruct (decide (a = nt)) as [-> | Hne].
      - rewrite list_lookup_alter_eq in Ha.
        destruct (arrays s !! nt) as [c0 |]; [| discriminate Ha].
        injection Ha as <-. exists c0. split; reflexivity.
      - rewrite list_lookup_alter_ne in Ha by congruence.
        exists c. split; [exact Ha | reflexivity]. }
    split; cbn [arrays T_ threads].
    + intros a a' c c' Ha Ha' Hown.
      destruct (Hsame a c Ha) as (c0 & Hc0 & Ho).
      destruct (Hsame a' c' Ha') as (c0' & Hc0' & Ho').
      apply (Hone a a' c0 c0' Hc0 Hc0'). congruence.
    + intros a c Ha. destruct (Hsame a c Ha) as (c0 & Hc0 & Ho).
      pose proof (past_new_moved (T_ s) (T_ s) (threads s) k f AtGet a c0 Hk)
        as Hmoved.
      unfold past_new in *. rewrite <- Ho. apply Hmoved; auto.
      intros _ _. exists p. exact Hp.
  - destruct Hpc as [p Hp]. rewrite Hp.
    split; [exact Hone |]. intros a c Ha. cbn [arrays T_ threads] in *.
    apply (past_new_moved (T_ s) (T_ s) _ _ f); auto.
  - split; [exact Hone |]. intros a c Ha. cbn [arrays T_ threads] in *.
    apply (past_new_moved (T_ s) (T_ s) _ _ f); auto.
  - split; [exact Hone |]. intros a c Ha. cbn [arrays T_ threads] in *.
    apply (past_new_moved (T_ s) (T_ s) _ _ f); auto.
    rewrite Hat. intros _ [].
  - destruct Hpc.
Qed.

Lemma bad_alloc_allocations (k : nat) (s : state) :
  allocations_ok s -> allocations_ok (bad_alloc k s).
Proof.
  intros [Hone Hpast]. unfold bad_alloc.
  destruct (threads s !! k) as [f |] eqn:Hk; [| split; assumption].
  destruct (at_ f) eqn:Hat; try (split; assumption).
  split; [exact Hone |]. intros a c Ha. cbn [arrays T_ threads] in *.
  apply (past_new_moved (T_ s) (T_ s) _ _ f); auto.
  rewrite Hat. intros _ [].
Qed.

Lemma exec_allocations (evs : list event) :
  forall s, calls_valid evs = true -> invariant s -> allocations_ok s ->
            allocations_ok (exec evs s).
Proof.
  induction evs as [| e evs IH]; intros s Hok Hinv Halloc; [exact Halloc |].
  unfold calls_valid in Hok. cbn [forallb] in Hok.
  apply andb_true_iff in Hok. destruct Hok as [He Hok].
  rewrite exec_cons. destruct e as [n | k | k]; cbn [exec1 call_ok] in *.
  - apply IH; [exact Hok | apply call_invariant; assumption
              | apply call_allocations; exact Halloc].
  - apply IH; [exact Hok | apply step_invariant; exact Hinv
              | apply step_allocations; assumption].
  - apply IH; [exact Hok | apply bad_alloc_invariant; exact Hinv
              | apply bad_alloc_allocations; exact Halloc].
Qed.

(** A call of [Get] allocates at most one array: at every moment, whatever
    the calls and the interleaving, no two arrays were allocated by the same
    thread, and every array was allocated by a thread that has called, so
    there are never more arrays than calls. *)
Theorem one_allocation_per_call (evs : list event) :
  let s := exec evs new_sequence in
  calls_valid evs = true ->
  (forall a a' c c',
     arrays s !! a = Some c -> arrays s !! a' = Some c' ->
     owner c = owner c' -> a = a')
  /\ (forall a c, arrays s !! a = Some c ->
                  (owner c < length (threads s))%nat)
  /\ (length (arrays s) <= length (threads s))%nat.
Proof.
  intros s Hcalls.
  assert (Hinv : invariant s)
    by (apply exec_invariant; [exact Hcalls | apply new_sequence_invariant]).
  assert (Halloc : allocations_ok s).
  { apply exec_allocations; [exact Hcalls | apply new_sequence_invariant
                            | apply new_sequence_allocations]. }
  destruct Halloc as [Hone Hpast].
  assert (Howner : forall a c, arrays s !! a = Some c ->
                     (owner c < length (threads s))%nat).
  { intros a c Ha. destruct (Hpast a c Ha) as (f & Hf & _).
    eapply lookup_lt_Some. exact Hf. }
  split; [exact Hone |]. split; [exact Howner |].
  assert (Hnodup : NoDup (owner <$> arrays s)).
  { apply NoDup_alt. intros a a' o Ha Ha'.
    rewrite list_lookup_fmap in Ha, Ha'.
    destruct (arrays s !! a) as [c |] eqn:Hc; [| discriminate Ha].
    destruct (arrays s !! a') as [c' |] eqn:Hc'; [| discriminate Ha'].
    cbn in Ha, Ha'. eapply Hone; [exact Hc | exact Hc' | congruence]. }
  assert (Hsub : owner <$> arrays s ⊆+ seq 0 (length (threads s))).
  { apply NoDup_submseteq; [exact Hnodup |].
    intros o Ho. apply list_elem_of_fmap in Ho. destruct Ho as (c & -> & Hc).
    apply list_elem_of_lookup in Hc. destruct Hc as [a Ha].
    apply elem_of_seq. specialize (Howner a c Ha). lia. }
  apply submseteq_length in Hsub.
  rewrite length_fmap, length_seq in Hsub. exact Hsub.
Qed.

Lemma one_allocation_per_call_example :
  (length (arrays (exec [Call 3; Call 4; Step 0; Step 1; Step 0; Step 1; Step 1;
                         Step 0; Step 0; Step 0; Step 0]%nat new_sequence))
   <= length (threads (exec [Call 3; Call 4; Step 0; Step 1; Step 0; Step 1;
                             Step 1; Step 0; Step 0; Step 0; Step 0]%nat
                         new_sequence)))%nat.
Proof.
  apply (one_allocation_per_call
           [Call 3; Call 4; Step 0; Step 1; Step 0; Step 1; Step 1;
            Step 0; Step 0; Step 0; Step 0]%nat).
  reflexivity.
Defined.

End Allocations.

(** ** More on the builders and on sending *)

Section MoreBuilderFacts.

Import Http.

Lemma TRequestGet_Build_over (msg : TMessage) (loc : TParsedLocation) :
  SizeT.in_range (50 + size (Service loc) + size (Data msg) + size (Host loc)) ->
  50 + size (Service loc) + size (Data msg) + size (Host loc)
  < Z.of_nat (length (GET_text (chars (Service loc)) (chars (Data msg))
                        (chars (Host loc)) (chars (Port loc)))) ->
  TRequestGet_Build msg loc = StreamExhausted.
Proof.
  intros Hcap Hover. apply TRequestGet_Build_short.
  rewrite (TRequestGet_memSize_exact msg loc Hcap). exact Hover.
Qed.

Lemma TRequestPost_Build_over (msg : TMessage) (loc : TParsedLocation) :
  SizeT.in_range (100 + size (Service loc) + size (Host loc)) ->
  100 + size (Service loc) + size (Host loc)
  < Z.of_nat (length (POST_header (chars (Service loc)) (chars (Host loc))
                        (chars (Port loc)) (ToString (size (Data msg))))) ->
  TRequestPost_Build msg loc = StreamExhausted.
Proof.
  intros Hcap Hover. apply TRequestPost_Build_short.
  rewrite (TRequestPost_memSize_exact loc Hcap). exact Hover.
Qed.

(** The GET builder ends in the stream's exhaustion exactly when what the
    estimate does not count, the question mark before the data and the colon
    and the port, is more than the 24 bytes the constant 50 leaves after the
    26 of the fixed text; otherwise it returns a request.  (The estimate is
    assumed not to wrap.) *)
Theorem TRequestGet_Build_fails_iff (msg : TMessage) (loc : TParsedLocation) :
  let uncounted :=
    match chars (Data msg) with [] => 0 | _ :: _ => 1 end
    + match chars (Port loc) with [] => 0 | _ :: _ => 1 + size (Port loc) end in
  SizeT.in_range (50 + size (Service loc) + size (Data msg) + size (Host loc)) ->
  (TRequestGet_Build msg loc = StreamExhausted <-> 24 < uncounted)
  /\ ((exists req, TRequestGet_Build msg loc = Ok req) <-> uncounted <= 24).
Proof.
  intros uncounted Hcap.
  pose proof (GET_text_length (chars (Service loc)) (chars (Data msg))
                (chars (Host loc)) (chars (Port loc))) as Hlen.
  assert (Hfit : Z.of_nat (length (GET_text (chars (Service loc))
                   (chars (Data msg)) (chars (Host loc)) (chars (Port loc))))
                 <= 50 + size (Service loc) + size (Data msg) + size (Host loc)
                 <-> uncounted <= 24).
  { rewrite Hlen. subst uncounted. unfold size.
    destruct (chars (Data msg)), (chars (Port loc)); simpl length; lia. }
  destruct (Z_le_gt_dec uncounted 24) as [Hle | Hgt].
  - pose proof (TRequestGet_Build_ok msg loc Hcap (proj2 Hfit Hle)) as Hok.
    split; split.
    + intros H. rewrite H in Hok. discriminate Hok.
    + lia.
    + intros _. exact Hle.
    + intros _. eexists. exact Hok.
  - assert (Hover : TRequestGet_Build msg loc = StreamExhausted).
    { apply TRequestGet_Build_over; [exact Hcap |].
      apply Z.nle_gt. intros H. apply Hfit in H. lia. }
    split; split.
    + intros _. lia.
    + intros _. exact Hover.
    + intros [req H]. rewrite Hover in H. discriminate H.
    + lia.
Qed.

Lemma TRequestGet_Build_fails_iff_example :
  TRequestGet_Build (message "" "q=1")
    (location "http" "example.com" "00000000000000000008080" "search")
  = StreamExhausted.
Proof.
  apply (TRequestGet_Build_fails_iff (message "" "q=1")
           (location "http" "example.com" "00000000000000000008080" "search")).
  - vm_compute. split; [discriminate | reflexivity].
  - vm_compute. reflexivity.
Defined.

(** The POST builder ends in the stream's exhaustion exactly when the colon
    and the port and the digits of the data's length are more than the 55
    bytes the constant 100 leaves after the 45 of the fixed text; otherwise
    it returns a request.  (The estimate is assumed not to wrap.) *)
Theorem TRequestPost_Build_fails_iff (msg : TMessage) (loc : TParsedLocation) :
  let uncounted :=
    match chars (Port loc) with [] => 0 | _ :: _ => 1 + size (Port loc) end
    + Z.of_nat (length (ToString (size (Data msg)))) in
  SizeT.in_range (100 + size (Service loc) + size (Host loc)) ->
  (TRequestPost_Build msg loc = StreamExhausted <-> 55 < uncounted)
  /\ ((exists req, TRequestPost_Build msg loc = Ok req) <-> uncounted <= 55).
Proof.
  intros uncounted Hcap.
  pose proof (POST_header_length (chars (Service loc)) (chars (Host loc))
                (chars (Port loc)) (ToString (size (Data msg)))) as Hlen.
  assert (Hfit : Z.of_nat (length (POST_header (chars (Service loc))
                   (chars (Host loc)) (chars (Port loc))
                   (ToString (size (Data msg)))))
                 <= 100 + size (Service loc) + size (Host loc)
                 <-> uncounted <= 55).
  { rewrite Hlen. subst uncounted. unfold size.
    destruct (chars (Port loc)); simpl length; lia. }
  destruct (Z_le_gt_dec uncounted 55) as [Hle | Hgt].
  - pose proof (TRequestPost_Build_ok msg loc Hcap (proj2 Hfit Hle)) as Hok.
    split; split.
    + intros H. rewrite H in Hok. discriminate Hok.
    + lia.
    + intros _. exact Hle.
    + intros _. eexists. exact Hok.
  - assert (Hover : TRequestPost_Build msg loc = StreamExhausted).
    { apply TRequestPost_Build_over; [exact Hcap |].
      apply Z.nle_gt. intros H. apply Hfit in H. lia. }
    split; split.
    + intros _. lia.
    + intros _. exact Hover.
    + intros [req H]. rewrite Hover in H. discriminate H.
    + lia.
Qed.

Lemma TRequestPost_Build_fails_iff_example :
  exists req,
    TRequestPost_Build (message "" "q=1")
      (location "post" "example.com" "8080" "search") = Ok req.
Proof.
  apply (TRequestPost_Build_fails_iff (message "" "q=1")
           (location "post" "example.com" "8080" "search")).
  - vm_compute. split; [discriminate | reflexivity].
  - vm_compute. discriminate.
Defined.

(** The POST and FULL builders keep the address of the data, not the data:
    what is sent for the data is what the caller's memory holds there when
    the request is sent, whatever it held when the request was built. *)
Theorem data_is_read_when_sent (msg : TMessage) (loc : TParsedLocation)
  (caller : memory) (io bytes : list ascii) :
  SizeT.in_range (100 + size (Service loc) + size (Host loc)) ->
  (forall req, load caller req (c_str (Data msg)) (size (Data msg)) = Some bytes) ->
  (forall req, TRequestPost_Build msg loc = Ok req ->
     SendTo caller req io
     = Some (io ++ POST_header (chars (Service loc)) (chars (Host loc))
                     (chars (Port loc)) (ToString (size (Data msg)))
                ++ bytes))
  /\ (forall req, TRequestFull_Build msg loc = Ok req ->
        SendTo caller req io = Some (io ++ bytes)).
Proof.
  intros Hcap Hload. split.
  - intros req Hbuild.
    destruct (Z_le_gt_dec
                (Z.of_nat (length (POST_header (chars (Service loc))
                   (chars (Host loc)) (chars (Port loc))
                   (ToString (size (Data msg))))))
                (100 + size (Service loc) + size (Host loc))) as [Hfit | Hover].
    + pose proof (TRequestPost_Build_ok msg loc Hcap Hfit) as Hok.
      cbv zeta in Hok. rewrite Hok in Hbuild.
      apply Ok_inj in Hbuild. subst req.
      unfold SendTo. cbn [Parts_ write_parts buf len].
      rewrite load_Mem_prefix, Hload, <- app_assoc. reflexivity.
    + rewrite (TRequestPost_Build_over msg loc Hcap) in Hbuild by lia.
      discriminate Hbuild.
  - intros req Hbuild. injection Hbuild as <-.
    unfold SendTo. cbn [Parts_ add_part new_TRequestData app write_parts buf len].
    rewrite Hload. reflexivity.
Qed.

Lemma data_is_read_when_sent_example :
  exists req,
    TRequestFull_Build (message "" "q=1") (location "full" "h" "" "") = Ok req
    /\ SendTo (memory_of_data "xyz") req [] = Some (AsStringBuf "xyz").
Proof.
  eexists. split; [reflexivity |].
  apply (data_is_read_when_sent (message "" "q=1") (location "full" "h" "" "")
           (memory_of_data "xyz") [] (AsStringBuf "xyz")).
  - vm_compute. split; [discriminate | reflexivity].
  - intros req. reflexivity.
  - reflexivity.
Defined.

Lemma load_length (caller : memory) (r : TRequestData) (p : ptr) (n : Z)
  (bytes : list ascii) :
  load caller r p n = Some bytes -> Z.of_nat (length bytes) = n.
Proof.
  unfold load.
  destruct (Z.eqb_spec n 0) as [-> | Hnz].
  - intros Hb. injection Hb as <-. reflexivity.
  - destruct (Z.leb_spec 0 (ofs p)) as [Hofs | _]; [| discriminate].
    destruct (Z.leb_spec 0 n) as [Hn | _]; [| discriminate].
    match goal with
    | |- context [ofs p + n <=? ?m] =>
        destruct (Z.leb_spec (ofs p + n) m) as [Hend | _]
    end; [| discriminate].
    cbn [andb]. intros Hb. injection Hb as <-.
    rewrite length_take, length_drop. lia.
Qed.

Lemma write_parts_length (caller : memory) (r : TRequestData)
  (ps : list TPart) :
  forall io out,
    write_parts caller r ps io = Some out ->
    Z.of_nat (length out)
    = Z.of_nat (length io) + foldr (fun p n => len p + n) 0 ps
    /\ Forall (fun p => 0 <= len p) ps.
Proof.
  induction ps as [| p ps IH]; intros io out Hout.
  - cbn in Hout. injection Hout as <-. cbn [foldr]. split; [lia | constructor].
  - cbn [write_parts] in Hout.
    destruct (load caller r (buf p) (len p)) as [bytes |] eqn:Hload;
      [| discriminate Hout].
    apply load_length in Hload.
    destruct (IH _ _ Hout) as [Hlen Hpos].
    rewrite length_app, Nat2Z.inj_add in Hlen. cbn [foldr].
    split; [lia | constructor; [lia | exact Hpos]].
Qed.

(** What [SendTo] sends is as long as the parts say: when every part can be
    read, the stream grows by the sum of the parts' lengths, none of them
    negative; the bytes of [Mem] that no part covers are not sent. *)
Theorem SendTo_length (caller : memory) (r : TRequestData)
  (io out : list ascii) :
  SendTo caller r io = Some out ->
  Z.of_nat (length out)
  = Z.of_nat (length io) + foldr (fun p n => len p + n) 0 (Parts_ r)
  /\ Forall (fun p => 0 <= len p) (Parts_ r).
Proof. unfold SendTo. apply write_parts_length. Qed.

Lemma SendTo_length_example :
  exists out,
    SendTo (memory_of_data "q=1")
      {| Mem := AsStringBuf "POST / and more";
         Parts_ := [ {| buf := Mem_begin; len := 6 |};
                     {| buf := {| blk := BCaller 7; ofs := 1 |}; len := 2 |} ] |}
      [] = Some out
    /\ Z.of_nat (length out) = 8.
Proof.
  eexists. split; [reflexivity |].
  exact (proj1 (SendTo_length (memory_of_data "q=1")
                  {| Mem := AsStringBuf "POST / and more";
                     Parts_ := [ {| buf := Mem_begin; len := 6 |};
                                 {| buf := {| blk := BCaller 7; ofs := 1 |};
                                    len := 2 |} ] |}
                  [] _ eq_refl)).
Defined.

End MoreBuilderFacts.
